(** * PageRank: transition model, sampling estimator, iterative estimator

    A shallow embedding of [pagerank-pomme.py].

    Numbers.  The program computes with Python floats.  They are modelled
    here as exact rationals ([Q], compared with [==]), so every statement
    below is about the arithmetic the program writes down, not about
    rounding.  The threshold [0.001] is the rational 1/1000.

    Dictionaries.  A Python [dict] keeps its keys in insertion order and
    the program iterates over them in that order while it updates values
    in place, so a dictionary is an association list; a link set is a
    finite set ([gset]) of which only [len] and [in] are used. *)

From Stdlib Require Import QArith Qabs Lia Lqa Sorted.
From stdpp Require Import gmap strings list.

Open Scope Q_scope.

(** ** Python values *)

(** A page is named by a string. *)
Abbreviation page := string (only parsing).

(** A dictionary with string keys, keys in insertion order. *)
Definition dict (V : Type) := list (string * V).

(** The link graph returned by [crawl]: page -> set of pages. *)
Definition corpus := dict (gset page).

Inductive exn := KeyError | IndexError | ValueError | ZeroDivisionError.

(** The result of running a piece of Python: a value or an exception. *)
Inductive outcome (A : Type) :=
| Returns (a : A)
| Raises (e : exn).
Arguments Returns {A} a.
Arguments Raises {A} e.

(** Sequencing: an exception ends the computation ([x ← m; k]). *)
#[global] Instance outcome_bind : MBind outcome := λ A B k m,
  match m with
  | Returns a => k a
  | Raises e => Raises e
  end.

Fixpoint for_each {A B} (f : A → outcome B) (l : list A) : outcome (list B) :=
  match l with
  | [] => Returns []
  | a :: l' => b ← f a; bs ← for_each f l'; Returns (b :: bs)
  end.

Module Dict.

(** [list(d)], [for k in d] *)
Definition keys {V} (d : dict V) : list string := map fst d.

(** [d.values()] *)
Definition values {V} (d : dict V) : list V := map snd d.

Fixpoint get {V} (d : dict V) (k : string) : option V :=
  match d with
  | [] => None
  | (k', v) :: d' => if decide (k' = k) then Some v else get d' k
  end.

(** [d[k]] as an expression *)
Definition subscript {V} (d : dict V) (k : string) : outcome V :=
  match get d k with
  | Some v => Returns v
  | None => Raises KeyError
  end.

(** [d[k] = v]: an existing key keeps its place, a new key goes last. *)
Fixpoint set {V} (d : dict V) (k : string) (v : V) : dict V :=
  match d with
  | [] => [(k, v)]
  | (k', v') :: d' =>
      if decide (k' = k) then (k', v) :: d' else (k', v') :: set d' k v
  end.

(** [{item: v for item in ks}] for keys without repetition *)
Definition const {V} (ks : list string) (v : V) : dict V :=
  map (fun item => (item, v)) ks.

End Dict.

(** [len(x)] as a number *)
Definition Qnat (n : nat) : Q := inject_Z (Z.of_nat n).

(** [pagerank[key]] where [pagerank] was built with every key of the
    corpus and [key] ranges over the corpus: the lookup cannot miss
    (lemma [at_hit]); the default is never read. *)
Definition at_ (d : dict Q) (k : string) : Q := default 0 (Dict.get d k).

Fixpoint Qsum (l : list Q) : Q :=
  match l with
  | [] => 0
  | x :: l' => x + Qsum l'
  end.

(** ** The pomegranate objects used by [transition_model]

    [DiscreteDistribution], [ConditionalProbabilityTable] and
    [BayesianNetwork.probability] belong to the pomegranate library.  The
    network built by the program has two states, [start] and [probs_all],
    and one edge between them; [probability] of a sample
    [[parent, child]] is the joint probability
    P(start = parent) * P(probs_all = child | start = parent), each factor
    read off the table it was given.  The program asks for one sample at
    a time and the answer is read as that one number.  The product is the
    library's answer for entries in [0,1], which is where the statements
    below use it. *)

Definition DiscreteDistribution := dict Q.

(** Rows [[parent, child, probability]]. *)
Definition ConditionalProbabilityTable := list (string * page * Q).

Record BayesianNetwork := {
  start : DiscreteDistribution;
  probs_all : ConditionalProbabilityTable
}.

Fixpoint cpt_lookup (t : ConditionalProbabilityTable)
    (parent : string) (child : page) : Q :=
  match t with
  | [] => 0
  | (p, c, x) :: t' =>
      if decide (p = parent ∧ c = child) then x else cpt_lookup t' parent child
  end.

Definition probability (m : BayesianNetwork) (parent : string) (child : page) : Q :=
  at_ (start m) parent * cpt_lookup (probs_all m) parent child.

(** ** transition_model *)

(** The first loop [for item in corpus]: the rows of the damping branch.
    [corpus[page]] is evaluated for every item, and [1 / len(...)] only
    when [item] is in it. *)
Definition damping_rows (c : corpus) (page : page) : outcome ConditionalProbabilityTable :=
  for_each
    (fun item =>
       links ← Dict.subscript c page;
       if decide (item ∈ links)
       then Returns ("damping"%string, item, 1 / Qnat (size links))
       else Returns ("damping"%string, item, 0))
    (Dict.keys c).

(** The second loop [for item in corpus]: the rows of the other branch. *)
Definition non_damping_rows (c : corpus) : ConditionalProbabilityTable :=
  map (fun item => ("non-damping"%string, item, 1 / Qnat (length c))) (Dict.keys c).

Definition transition_model (c : corpus) (page : page) (damping_factor : Q)
    : outcome (dict Q) :=
  let start :=
    [("damping"%string, damping_factor);
     ("non-damping"%string, 1 - damping_factor)] in
  probs ← damping_rows c page;
  let probs := probs ++ non_damping_rows c in
  let model := {| start := start; probs_all := probs |} in
  let transitions := Dict.const (Dict.keys c) 0 in
  Returns
    (fold_left
       (fun transitions item =>
          Dict.set transitions item
            (probability model "damping" item
             + probability model "non-damping" item))
       (Dict.keys c) transitions).

(** The corpus of the specification's second scenario. *)
Definition corpus_abc : corpus :=
  [("A"%string, {["B"%string; "C"%string]});
   ("B"%string, ∅);
   ("C"%string, {["A"%string]})].

(** ** The random source

    [random.choice] and [random.choices] draw from Python's generator.
    The draws are an explicit input: [randbelow] is the raw integer behind
    the one call of [random.choice] (reduced modulo the length, as
    [_randbelow] returns a value below it), and [random k] is the value of
    the [k]-th call of [random()]. *)

Record rng := {
  randbelow : nat;
  random : nat → Q
}.

(** [random.choice(seq)] *)
Definition random_choice {A} (g : rng) (seq : list A) : outcome A :=
  match seq !! (randbelow g `mod` length seq)%nat with
  | Some x => Returns x
  | None => Raises IndexError
  end.

(** [itertools.accumulate(weights)]: running sums. *)
Fixpoint accumulate_from (acc : Q) (weights : list Q) : list Q :=
  match weights with
  | [] => []
  | w :: ws => (acc + w) :: accumulate_from (acc + w) ws
  end.

Definition accumulate (weights : list Q) : list Q :=
  match weights with
  | [] => []
  | w :: ws => w :: accumulate_from w ws
  end.

(** [bisect.bisect_right(a, x, lo, hi)]: the loop runs at most [hi - lo]
    times, [fuel] bounds it. *)
Fixpoint bisect_loop (fuel : nat) (a : list Q) (x : Q) (lo hi : nat) : nat :=
  match fuel with
  | O => lo
  | S fuel' =>
      if decide (lo < hi)%nat then
        let mid := ((lo + hi) / 2)%nat in
        if Qlt_le_dec x (default 0 (a !! mid))
        then bisect_loop fuel' a x lo mid
        else bisect_loop fuel' a x (mid + 1)%nat hi
      else lo
  end.

Definition bisect (a : list Q) (x : Q) (lo hi : nat) : nat :=
  bisect_loop (hi - lo) a x lo hi.

(** [random.choices(population, weights=weights)[0]], drawing [u] from
    [random()]: the cumulative weights, the check that their total is
    positive ([ValueError] otherwise, CPython 3.9 and later), then the
    bisection. *)
Definition random_choices {A} (u : Q) (population : list A) (weights : list Q)
    : outcome A :=
  let n := length population in
  let cum_weights := accumulate weights in
  if decide (length cum_weights ≠ n) then Raises ValueError else
  match last cum_weights with
  | None => Raises IndexError
  | Some total =>
      if Qlt_le_dec 0 total then
        let hi := (n - 1)%nat in
        match population !! bisect cum_weights (u * total) 0 hi with
        | Some x => Returns x
        | None => Raises IndexError
        end
      else Raises ValueError
  end.

(** ** sample_pagerank *)

(** [value / n] on Python integers. *)
Definition true_div (x y : Z) : outcome Q :=
  if decide (y = 0%Z) then Raises ZeroDivisionError
  else Returns (inject_Z x / inject_Z y).

(** The body of [for _ in range(n)], [k] iterations left, the next call
    of [random()] being the [i]-th. *)
Fixpoint sample_loop (g : rng) (c : corpus) (damping_factor : Q)
    (k i : nat) (keys : list page) (probs : list Q) (samples : dict Z)
    : outcome (dict Z) :=
  match k with
  | O => Returns samples
  | S k' =>
      page ← random_choices (random g i) keys probs;
      count ← Dict.subscript samples page;
      let samples := Dict.set samples page (count + 1)%Z in
      transitions ← transition_model c page damping_factor;
      sample_loop g c damping_factor k' (S i)
        (Dict.keys transitions) (Dict.values transitions) samples
  end.

(** [for item, value in samples.items(): pagerank[item] = value / n] *)
Fixpoint normalise (items : list (page * Z)) (n : Z) (pagerank : dict Q)
    : outcome (dict Q) :=
  match items with
  | [] => Returns pagerank
  | (item, value) :: items' =>
      q ← true_div value n;
      normalise items' n (Dict.set pagerank item q)
  end.

(** The visit counts at the end of the sampling loop. *)
Definition sample_counts (g : rng) (c : corpus) (damping_factor : Q) (n : Z)
    : outcome (dict Z) :=
  page ← random_choice g (Dict.keys c);
  transitions ← transition_model c page damping_factor;
  let keys := Dict.keys transitions in
  let probs := Dict.values transitions in
  let samples := Dict.const (Dict.keys c) 0%Z in
  sample_loop g c damping_factor (Z.to_nat n) 0 keys probs samples.

Definition sample_pagerank (g : rng) (c : corpus) (damping_factor : Q) (n : Z)
    : outcome (dict Q) :=
  samples ← sample_counts g c damping_factor n;
  let pagerank := Dict.const (Dict.keys c) 0 in
  normalise samples n pagerank.

(** ** iterate_pagerank *)

Definition threshold : Q := 1 # 1000.

(** The inner loop [for key, links in corpus.items()], for one [page].
    The division by [len(links)] is only reached when [page in links],
    so [links] is not empty there; [N] is [len(corpus)], at least 1
    whenever the loop body runs. *)
Definition inflow (c : corpus) (N : Q) (pagerank : dict Q) (page : page) : Q :=
  fold_left
    (fun rank '(key, links) =>
       let rank :=
         if decide (size links = 0%nat) then rank + at_ pagerank key / N
         else rank in
       if decide (page ∈ links)
       then rank + at_ pagerank key / Qnat (size links)
       else rank)
    c 0.

(** One round of the outer [for page in corpus]: [pagerank[page]] is
    overwritten in the dictionary the next rounds read. *)
Definition update_page (c : corpus) (N damping_factor : Q)
    (pagerank : dict Q) (page : page) : dict Q :=
  Dict.set pagerank page
    ((1 - damping_factor) + damping_factor * inflow c N pagerank page).

(** The whole [for page in corpus] loop. *)
Definition sweep (c : corpus) (N damping_factor : Q) (pagerank : dict Q) : dict Q :=
  fold_left (update_page c N damping_factor) (Dict.keys c) pagerank.

(** [max(l)]: the first largest element; [ValueError] on an empty list. *)
Definition py_max (l : list Q) : outcome Q :=
  match l with
  | [] => Raises ValueError
  | x :: l' => Returns (fold_left (fun m y => if Qlt_le_dec m y then y else m) l' x)
  end.

(** [[abs(pagerank_prev[key] - item) for key, item in pagerank.items()]] *)
Definition changes (pagerank_prev pagerank : dict Q) : list Q :=
  map (fun '(key, item) => Qabs (at_ pagerank_prev key - item)) pagerank.

(** The [while True] loop.  [None]: the loop has not stopped within
    [fuel] rounds.  [pagerank_prev = {key: item ...}] is a fresh copy, so
    later updates of [pagerank] do not touch it. *)
Fixpoint iterate_loop (fuel : nat) (c : corpus) (N damping_factor : Q)
    (pagerank pagerank_prev : dict Q) : option (outcome (dict Q)) :=
  match fuel with
  | O => None
  | S fuel' =>
      let pagerank := sweep c N damping_factor pagerank in
      match py_max (changes pagerank_prev pagerank) with
      | Raises e => Some (Raises e)
      | Returns diff =>
          if Qlt_le_dec diff threshold then Some (Returns pagerank)
          else iterate_loop fuel' c N damping_factor pagerank pagerank
      end
  end.

(** [for key, item in pagerank.items(): pagerank[key] = pagerank[key] / N] *)
Definition divide_all (N : Q) (pagerank : dict Q) : dict Q :=
  fold_left (fun pr '(key, _) => Dict.set pr key (at_ pr key / N)) pagerank pagerank.

Definition iterate_pagerank (fuel : nat) (c : corpus) (damping_factor : Q)
    : option (outcome (dict Q)) :=
  let N := Qnat (length c) in
  let pagerank := Dict.const (Dict.keys c) 0 in
  let pagerank :=
    fold_left (fun pr item => Dict.set pr item (1 / N)) (Dict.keys c) pagerank in
  let pagerank_prev := Dict.const (Dict.keys c) 0 in
  match iterate_loop fuel c N damping_factor pagerank pagerank_prev with
  | Some (Returns pagerank) => Some (Returns (divide_all N pagerank))
  | r => r
  end.

Definition corpus_ab : corpus :=
  [("A"%string, {["B"%string]}); ("B"%string, {["A"%string]})].

Definition corpus_a : corpus := [("A"%string, ∅)].

Definition rng0 : rng := {| randbelow := 0; random := fun _ => 1 # 2 |}.

(** ** Valid inputs *)

(** The link graph the loader promises: at least one page, every page
    once (a dictionary has no repeated key), every link inside the
    corpus. *)
Definition valid_corpus (c : corpus) : Prop :=
  c ≠ [] ∧ NoDup (Dict.keys c)
  ∧ Forall (fun entry => entry.2 ⊆ list_to_set (Dict.keys c)) c.

(** The vector the loop starts from: 1/N under every page. *)
Definition initial_ranks (c : corpus) : dict Q :=
  map (fun item => (item, 1 / Qnat (length c))) (Dict.keys c).

(** ** The recurrence and the loop, as the specification words them *)

(** rank(p) = (1 - damping)/N + damping * (sum over the pages q linking
    to p of rank(q)/outdegree(q)), a dangling page q adding rank(q)/N to
    the sum of every page. *)
Definition spec_recurrence (c : corpus) (damping : Q) (rank : page → Q) (p : page) : Q :=
  let N := Qnat (length c) in
  (1 - damping) / N
  + damping
    * (Qsum (map (fun e => rank e.1 / Qnat (size e.2)) (filter (fun e => p ∈ e.2) c))
       + Qsum (map (fun e => rank e.1 / N) (filter (fun e => e.2 = ∅) c))).

(** "Compute the full next vector from the current vector": every page is
    computed from [pagerank] as it was before the sweep. *)
Definition spec_synchronous_sweep (c : corpus) (N damping_factor : Q)
    (pagerank : dict Q) : dict Q :=
  map (fun page =>
         (page, (1 - damping_factor) + damping_factor * inflow c N pagerank page))
    (Dict.keys c).

(** The dictionary [pagerank] after [k] rounds of the [while] loop. *)
Definition round_vector (c : corpus) (N damping_factor : Q) (pagerank : dict Q)
    (k : nat) : dict Q :=
  Nat.iter k (sweep c N damping_factor) pagerank.

(** The dictionary [pagerank_prev] during round [k] (counted from 1): the
    one the loop was entered with in round 1, the copy taken at the end
    of round [k - 1] afterwards. *)
Definition round_prev (c : corpus) (N damping_factor : Q)
    (pagerank pagerank_prev : dict Q) (k : nat) : dict Q :=
  match k with
  | S (S j) => round_vector c N damping_factor pagerank (S j)
  | _ => pagerank_prev
  end.

(** The test [diff < 0.001] succeeds in round [k]. *)
Definition stops_in_round (c : corpus) (N damping_factor : Q)
    (pagerank pagerank_prev : dict Q) (k : nat) : Prop :=
  ∃ diff,
    py_max (changes (round_prev c N damping_factor pagerank pagerank_prev k)
                    (round_vector c N damping_factor pagerank k))
    = Returns diff
    ∧ diff < threshold.

(** What the inner loop of [iterate_pagerank] adds to [rank] for one
    entry [e] of the corpus, [p] being the page of the outer loop. *)
Definition inflow_term (N : Q) (pagerank : dict Q) (p : string)
    (e : string * gset string) : Q :=
  (if decide (e.2 = ∅) then at_ pagerank e.1 / N else 0)
  + (if decide (p ∈ e.2) then at_ pagerank e.1 / Qnat (size e.2) else 0).

(** ** The chain of pages behind the visit counts *)

(** The pages drawn by the sampling loop, in order: the same draws as
    [sample_loop], kept in a list instead of counted. *)
Fixpoint sample_walk (g : rng) (c : corpus) (damping_factor : Q)
    (k i : nat) (keys : list page) (probs : list Q) : outcome (list page) :=
  match k with
  | O => Returns []
  | S k' =>
      page ← random_choices (random g i) keys probs;
      transitions ← transition_model c page damping_factor;
      walk ← sample_walk g c damping_factor k' (S i)
                (Dict.keys transitions) (Dict.values transitions);
      Returns (page :: walk)
  end.

(** The pages drawn by a call of [sample_pagerank]. *)
Definition sample_pagerank_walk (g : rng) (c : corpus) (damping_factor : Q) (n : Z)
    : outcome (list page) :=
  page ← random_choice g (Dict.keys c);
  transitions ← transition_model c page damping_factor;
  sample_walk g c damping_factor (Z.to_nat n) 0
    (Dict.keys transitions) (Dict.values transitions).

(** How many times page [p] was drawn. *)
Definition visits (walk : list page) (p : page) : Z :=
  Z.of_nat (length (filter (fun q => q = p) walk)).

(** ** Measuring the distance between two rounds *)

(** The share of [pagerank[key]] that the inner loop of
    [iterate_pagerank] adds to the rank of page [p], [links] being the
    links of [key]: 1/N from a dangling page, 1/len(links) from a page
    that links to [p]. *)
Definition weight (N : Q) (p : page) (links : gset page) : Q :=
  (if decide (links = ∅) then 1 / N else 0)
  + (if decide (p ∈ links) then 1 / Qnat (size links) else 0).

(** The total share a page with these [links] gives to the pages [ps]. *)
Definition mass (N : Q) (ps : list page) (links : gset page) : Q :=
  Qsum (map (fun p => weight N p links) ps).

(** The share page [q] gives to the pages that come after it in [ps]:
    the pages that, in a sweep over [ps], read the value of [q] written
    in that same sweep. *)
Fixpoint mass_after (N : Q) (ps : list page) (q : page) (links : gset page) : Q :=
  match ps with
  | [] => 0
  | p :: ps' =>
      if decide (p = q) then mass N ps' links else mass_after N ps' q links
  end.

(** The absolute difference of two dictionaries at a page. *)
Definition gap (a b : dict Q) (q : page) : Q := Qabs (at_ a q - at_ b q).

(** The sum of the gaps over the corpus, the gap at [q] counted with the
    factor 1 - damping * (share of [q] read within the same sweep). *)
Definition weighted_gap (c : corpus) (N d : Q) (a b : dict Q) : Q :=
  Qsum (map (fun e => (1 - d * mass_after N (Dict.keys c) e.1 e.2) * gap a b e.1) c).

(** ** crawl

    The directory is taken as readable: [os.listdir] with the text
    [f.read()] of each entry, in the order [os.listdir] gives them.
    [re.findall] with the pattern of the program is a parameter
    ([findall]): the list of the [href] values it finds in a text. *)

Abbreviation directory := (list (string * string)) (only parsing).

(** [s.endswith(suffix)]: some tail of [s] is [suffix]. *)
Fixpoint endswith (s suffix : string) : bool :=
  if String.eqb s suffix then true
  else match s with
       | EmptyString => false
       | String _ s' => endswith s' suffix
       end.

Section crawl_model.
Variable findall : string → list string.

(** One round of the first loop: entries whose name does not end with
    [.html] are skipped, the others get
    [pages[filename] = set(links) - {filename}]. *)
Definition crawl_extract_step (pages : corpus) (entry : string * string) : corpus :=
  let '(filename, contents) := entry in
  if endswith filename ".html"
  then Dict.set pages filename
         (list_to_set (findall contents) ∖ {[filename]})
  else pages.

(** The first loop, [for filename in os.listdir(directory)]. *)
Definition crawl_extract (dir : directory) : corpus :=
  fold_left crawl_extract_step dir [].

(** One round of the second loop:
    [pages[filename] = set(link for link in pages[filename] if link in pages)].
    [filename] is a key of [pages], the lookup cannot miss. *)
Definition crawl_restrict_step (pages : corpus) (filename : string) : corpus :=
  Dict.set pages filename
    (filter (fun link => link ∈ Dict.keys pages)
       (default ∅ (Dict.get pages filename))).

(** The second loop, [for filename in pages]: it assigns to existing
    keys only, so the keys it runs over do not change. *)
Definition crawl_restrict (pages : corpus) : corpus :=
  fold_left crawl_restrict_step (Dict.keys pages) pages.

Definition crawl (dir : directory) : corpus :=
  crawl_restrict (crawl_extract dir).

End crawl_model.

(** A directory and an extractor to try [crawl] on: the extractor takes
    the whole text of a file as its one link. *)
Definition findall_whole (text : string) : list string := [text].

Definition dir_example : directory :=
  [("a.html", "b.html"); ("notes.txt", "a.html"); ("b.html", "c.html")]%string.

(** The graph A -> {B}, B -> {}. *)
Definition corpus_a_b : corpus :=
  [("A"%string, {["B"%string]}); ("B"%string, ∅)].

(** ** main

    What [main] does is modelled up to the text it prints.  The file
    system is a parameter ([listdir]: the entries of a directory with
    their text; the directory is taken as readable), and so is the
    formatting of a number with four decimals ([format_4f], the
    [:.4f] of the f-strings). *)

Definition DAMPING : Q := 85 # 100.
Definition SAMPLES : Z := 10000.

(** [sorted(l)] on strings: increasing order of code points, which on
    the bytes of a string is the order [String.leb]. *)
Fixpoint insert_sorted (x : string) (l : list string) : list string :=
  match l with
  | [] => [x]
  | y :: l' => if String.leb x y then x :: l else y :: insert_sorted x l'
  end.

Definition py_sorted (l : list string) : list string :=
  fold_right insert_sorted [] l.

(** How a run of the program ends: [sys.exit(message)], an exception
    that nothing catches (after the lines printed so far), or the normal
    end (with all the lines printed). *)
Inductive run :=
| Exits (message : string)
| Crashes (printed : list string) (e : exn)
| Prints (printed : list string).

Section main_model.
Variable findall : string → list string.
Variable listdir : string → directory.
Variable format_4f : Q → string.

(** One line [f"  {page}: {ranks[page]:.4f}"]. *)
Definition report_line (ranks : dict Q) (page : page) : string :=
  ("  " ++ page ++ ": " ++ format_4f (at_ ranks page))%string.

(** [for page in sorted(ranks): print(...)] *)
Definition report (ranks : dict Q) : list string :=
  map (report_line ranks) (py_sorted (Dict.keys ranks)).

(** [argv] is [sys.argv].  [None]: the loop of [iterate_pagerank] has
    not stopped within [fuel] rounds.  The first heading is the f-string
    with [SAMPLES] filled in. *)
Definition main (fuel : nat) (g : rng) (argv : list string) : option run :=
  if decide (length argv ≠ 2%nat)
  then Some (Exits "Usage: python pagerank.py corpus")
  else
    let corpus := crawl findall (listdir (nth 1 argv ""%string)) in
    match sample_pagerank g corpus DAMPING SAMPLES with
    | Raises e => Some (Crashes [] e)
    | Returns ranks =>
        let printed :=
          "PageRank Results from Sampling (n = 10000)"%string :: report ranks in
        match iterate_pagerank fuel corpus DAMPING with
        | None => None
        | Some (Raises e) => Some (Crashes printed e)
        | Some (Returns ranks) =>
            Some (Prints (printed
                          ++ "PageRank Results from Iteration"%string
                             :: report ranks))
        end
    end.

End main_model.

(** A file system and a number format to try [main] on. *)
Definition listdir_example (path : string) : directory :=
  if String.eqb path "corpus" then dir_example
  else [("readme.txt", "a.html")]%string.

Definition format_plain (x : Q) : string := "?".

(** * Properties *)

(** ** Dictionaries *)

Section dict_facts.
Context {V : Type}.
Implicit Types (d : dict V) (k : string) (v : V).

Lemma get_set_eq d k v : Dict.get (Dict.set d k v) k = Some v.
Proof.
  induction d as [|[k' v'] d IH]; simpl.
  - by rewrite decide_True.
  - destruct (decide (k' = k)) as [->|Hne]; simpl.
    + by rewrite decide_True.
    + by rewrite decide_False.
Qed.

Lemma get_set_ne d k k' v : k ≠ k' → Dict.get (Dict.set d k v) k' = Dict.get d k'.
Proof.
  intros Hne. induction d as [|[k0 v0] d IH]; simpl.
  - by rewrite decide_False.
  - destruct (decide (k0 = k)) as [->|Hne0]; simpl.
    + by rewrite !decide_False.
    + by rewrite IH.
Qed.

Lemma keys_set d k v : k ∈ Dict.keys d → Dict.keys (Dict.set d k v) = Dict.keys d.
Proof.
  induction d as [|[k0 v0] d IH]; simpl.
  - by intros ?%elem_of_nil.
  - intros Hin. destruct (decide (k0 = k)) as [->|Hne0]; simpl; [done|].
    f_equal. apply IH. apply elem_of_cons in Hin as [?|?]; [congruence|done].
Qed.

Lemma length_set d k v : k ∈ Dict.keys d → length (Dict.set d k v) = length d.
Proof.
  intros Hin. rewrite <-(length_map fst (Dict.set d k v)), <-(length_map fst d).
  change (map fst ?x) with (Dict.keys x). by rewrite keys_set.
Qed.

Lemma get_is_Some d k : k ∈ Dict.keys d ↔ is_Some (Dict.get d k).
Proof.
  induction d as [|[k0 v0] d IH]; simpl.
  - split; [by intros ?%elem_of_nil | by intros [? ?]].
  - rewrite elem_of_cons. destruct (decide (k0 = k)) as [->|Hne0].
    + split; eauto.
    + rewrite <-IH. split; [intros [?|?]; [congruence|done] | by right].
Qed.

Lemma get_None d k : k ∉ Dict.keys d ↔ Dict.get d k = None.
Proof. rewrite get_is_Some, eq_None_not_Some. done. Qed.

Lemma get_elem_of d k v : Dict.get d k = Some v → (k, v) ∈ d.
Proof.
  induction d as [|[k0 v0] d IH]; simpl; [done|].
  destruct (decide (k0 = k)) as [->|Hne0].
  - intros [= ->]. left.
  - intros. right. auto.
Qed.

Lemma elem_of_get d k v : NoDup (Dict.keys d) → (k, v) ∈ d → Dict.get d k = Some v.
Proof.
  induction d as [|[k0 v0] d IH]; simpl.
  - by intros _ ?%elem_of_nil.
  - intros [Hk0 Hnd]%NoDup_cons [Heq|Hin]%elem_of_cons.
    + injection Heq as -> ->. by rewrite decide_True.
    + rewrite decide_False; [by apply IH|].
      intros ->. apply Hk0. apply list_elem_of_fmap. by exists (k, v).
Qed.

(** Two dictionaries with the same keys in the same order and the same
    value under every key are the same dictionary. *)
Lemma dict_ext d1 d2 :
  NoDup (Dict.keys d1) → Dict.keys d1 = Dict.keys d2 →
  (∀ k, k ∈ Dict.keys d1 → Dict.get d1 k = Dict.get d2 k) → d1 = d2.
Proof.
  revert d2. induction d1 as [|[k1 v1] d1 IH]; intros [|[k2 v2] d2]; simpl; try done.
  intros [Hk1 Hnd]%NoDup_cons [= <- Hkeys] Hget.
  pose proof (Hget k1 (list_elem_of_here _ _)) as Hv. rewrite !decide_True in Hv by done.
  injection Hv as <-. f_equal. apply IH; [done..|].
  intros k Hk. specialize (Hget k (list_elem_of_further _ _ _ Hk)).
  rewrite !decide_False in Hget by (intros ->; done). done.
Qed.

Lemma keys_const (ks : list string) v : Dict.keys (Dict.const ks v) = ks.
Proof.
  unfold Dict.keys, Dict.const. rewrite map_map. simpl. apply map_id.
Qed.

Lemma get_map_keys (f : string → V) (ks : list string) k :
  k ∈ ks → Dict.get (map (fun item => (item, f item)) ks) k = Some (f k).
Proof.
  induction ks as [|k0 ks IH]; simpl.
  - by intros ?%elem_of_nil.
  - intros Hin. destruct (decide (k0 = k)) as [->|Hne]; [done|].
    apply IH. apply elem_of_cons in Hin as [?|?]; [congruence|done].
Qed.

Lemma keys_map_keys (f : string → V) (ks : list string) :
  Dict.keys (map (fun item => (item, f item)) ks) = ks.
Proof. unfold Dict.keys. rewrite map_map. simpl. apply map_id. Qed.

(** A loop that assigns [f item] to every key of the dictionary. *)
Lemma fold_set_keys (f : string → V) (ks : list string) d :
  ks ⊆ Dict.keys d →
  Dict.keys (fold_left (fun t item => Dict.set t item (f item)) ks d) = Dict.keys d
  ∧ ∀ k, Dict.get (fold_left (fun t item => Dict.set t item (f item)) ks d) k
         = if decide (k ∈ ks) then Some (f k) else Dict.get d k.
Proof.
  revert d. induction ks as [|k0 ks IH] using rev_ind; intros d Hsub.
  - simpl. by split.
  - rewrite fold_left_app. simpl.
    assert (Hks : ks ⊆ Dict.keys d).
    { intros k Hk. apply Hsub, elem_of_app. by left. }
    assert (Hk0 : k0 ∈ Dict.keys d).
    { apply Hsub, elem_of_app. right. left. }
    destruct (IH d Hks) as [Hkeys Hget].
    split.
    + rewrite keys_set; [done|]. by rewrite Hkeys.
    + intros k. destruct (decide (k0 = k)) as [->|Hne].
      * rewrite get_set_eq. rewrite decide_True; [done|].
        apply elem_of_app. right. left.
      * rewrite get_set_ne by done. rewrite Hget.
        destruct (decide (k ∈ ks)) as [Hin|Hnin].
        -- rewrite decide_True; [done|]. apply elem_of_app. by left.
        -- rewrite decide_False; [done|].
           intros [?|[?|?%elem_of_nil]%elem_of_cons]%elem_of_app; done.
Qed.

Lemma fold_set_const (f : string → V) (ks : list string) v :
  NoDup ks →
  fold_left (fun t item => Dict.set t item (f item)) ks (Dict.const ks v)
  = map (fun item => (item, f item)) ks.
Proof.
  intros Hnd.
  destruct (fold_set_keys f ks (Dict.const ks v)) as [Hkeys Hget].
  { by rewrite keys_const. }
  apply dict_ext.
  - by rewrite Hkeys, keys_const.
  - by rewrite Hkeys, keys_const, keys_map_keys.
  - intros k Hk. rewrite Hkeys, keys_const in Hk.
    rewrite Hget, decide_True by done. by rewrite get_map_keys.
Qed.

End dict_facts.

Lemma valid_corpus_abc : valid_corpus corpus_abc.
Proof. apply (bool_decide_unpack _). by vm_compute. Qed.

Lemma valid_corpus_ab : valid_corpus corpus_ab.
Proof. apply (bool_decide_unpack _). by vm_compute. Qed.

Lemma valid_corpus_a : valid_corpus corpus_a.
Proof. apply (bool_decide_unpack _). by vm_compute. Qed.

Lemma Qnat_pos n : (0 < n)%nat → 0 < Qnat n.
Proof.
  intros Hn. unfold Qnat. change 0 with (inject_Z 0). rewrite <-Zlt_Qlt. lia.
Qed.

Lemma Qnat_nonneg n : 0 <= Qnat n.
Proof.
  unfold Qnat. change 0 with (inject_Z 0). rewrite <-Zle_Qle. lia.
Qed.

Lemma Qnat_S n : Qnat (S n) == Qnat n + 1.
Proof.
  unfold Qnat. rewrite Nat2Z.inj_succ. unfold Z.succ. by rewrite inject_Z_plus.
Qed.

Lemma length_pos_of_valid c : valid_corpus c → (0 < length c)%nat.
Proof. intros [Hne _]. destruct c; [done | simpl; lia]. Qed.

(** ** transition_model *)

Lemma fold_left_ext_elem {A B} (f g : A → B → A) (l : list B) (a : A) :
  (∀ a b, b ∈ l → f a b = g a b) → fold_left f l a = fold_left g l a.
Proof.
  revert a. induction l as [|b l IH]; intros a Hfg; simpl; [done|].
  rewrite Hfg by left. apply IH. intros ???. apply Hfg. by right.
Qed.

Lemma for_each_Returns {A B} (f : A → outcome B) (g : A → B) l :
  (∀ a, f a = Returns (g a)) → for_each f l = Returns (map g l).
Proof.
  intros Hf. induction l as [|a l IH]; simpl; [done|]. by rewrite Hf, IH.
Qed.

Lemma damping_rows_eq c page links :
  Dict.get c page = Some links →
  damping_rows c page
  = Returns (map (fun item =>
                    ("damping"%string, item,
                     if decide (item ∈ links) then 1 / Qnat (size links) else 0))
               (Dict.keys c)).
Proof.
  intros Hget. unfold damping_rows. apply for_each_Returns.
  intros item. unfold Dict.subscript. rewrite Hget. simpl.
  by destruct (decide (item ∈ links)).
Qed.

Lemma cpt_lookup_hit (f : page → Q) parent ks rest k :
  k ∈ ks →
  cpt_lookup (map (fun item => (parent, item, f item)) ks ++ rest) parent k = f k.
Proof.
  induction ks as [|k0 ks IH]; simpl.
  - by intros ?%elem_of_nil.
  - intros Hin. destruct (decide (parent = parent ∧ k0 = k)) as [[_ ->]|Hne]; [done|].
    apply IH. apply elem_of_cons in Hin as [->|?]; [|done]. by destruct Hne.
Qed.

Lemma cpt_lookup_skip (f : page → Q) parent parent' ks rest k :
  parent' ≠ parent →
  cpt_lookup (map (fun item => (parent', item, f item)) ks ++ rest) parent k
  = cpt_lookup rest parent k.
Proof.
  intros Hne. induction ks as [|k0 ks IH]; simpl; [done|].
  destruct (decide (parent' = parent ∧ k0 = k)) as [[? _]|_]; [done|apply IH].
Qed.

(** What [transition_model] returns for a page of the corpus: one entry
    per page, in corpus order, holding the sum of the two joint
    probabilities. *)
Lemma transition_model_eq c page links d :
  NoDup (Dict.keys c) → Dict.get c page = Some links →
  transition_model c page d
  = Returns (map (fun item =>
       (item, d * (if decide (item ∈ links) then 1 / Qnat (size links) else 0)
              + (1 - d) * (1 / Qnat (length c)))) (Dict.keys c)).
Proof.
  intros Hnd Hget. unfold transition_model.
  rewrite (damping_rows_eq _ _ _ Hget). simpl.
  rewrite <-(fold_set_const _ _ 0 Hnd).
  f_equal. apply fold_left_ext_elem. intros t item Hin.
  f_equal. unfold probability, non_damping_rows. simpl.
  change (at_ _ "damping") with d.
  change (at_ _ "non-damping") with (1 - d).
  rewrite cpt_lookup_hit by done.
  rewrite cpt_lookup_skip by done.
  rewrite <-(app_nil_r (map _ (Dict.keys c))).
  by rewrite cpt_lookup_hit.
Qed.

(** ** Sums *)

Lemma Qsum_ext {A} (f g : A → Q) (l : list A) :
  (∀ a, a ∈ l → f a == g a) → Qsum (map f l) == Qsum (map g l).
Proof.
  induction l as [|a l IH]; intros Hfg; simpl; [reflexivity|].
  rewrite (Hfg a) by left. rewrite IH; [reflexivity|].
  intros ??. apply Hfg. by right.
Qed.

Lemma Qsum_const {A} (x : Q) (l : list A) :
  Qsum (map (fun _ => x) l) == Qnat (length l) * x.
Proof.
  induction l as [|a l IH]; simpl length.
  - simpl. unfold Qnat. simpl. ring.
  - rewrite Qnat_S. simpl. rewrite IH. ring.
Qed.

Lemma Qsum_plus {A} (f g : A → Q) (l : list A) :
  Qsum (map (fun a => f a + g a) l) == Qsum (map f l) + Qsum (map g l).
Proof. induction l as [|a l IH]; simpl; [ring | rewrite IH; ring]. Qed.

Lemma Qsum_scale {A} (x : Q) (f : A → Q) (l : list A) :
  Qsum (map (fun a => x * f a) l) == x * Qsum (map f l).
Proof. induction l as [|a l IH]; simpl; [ring | rewrite IH; ring]. Qed.

Lemma Qsum_app (l1 l2 : list Q) : Qsum (l1 ++ l2) == Qsum l1 + Qsum l2.
Proof. induction l1 as [|a l IH]; simpl; [ring | rewrite IH; ring]. Qed.

Lemma Qsum_nonneg {A} (f : A → Q) (l : list A) :
  (∀ a, a ∈ l → 0 <= f a) → 0 <= Qsum (map f l).
Proof.
  induction l as [|a l IH]; intros Hf; simpl; [lra|].
  assert (0 <= f a) by (apply Hf; left).
  assert (0 <= Qsum (map f l)) by (apply IH; intros ??; apply Hf; by right).
  lra.
Qed.

Lemma Qsum_le {A} (f g : A → Q) (l : list A) :
  (∀ a, a ∈ l → f a <= g a) → Qsum (map f l) <= Qsum (map g l).
Proof.
  induction l as [|a l IH]; intros Hf; simpl; [lra|].
  assert (f a <= g a) by (apply Hf; left).
  assert (Qsum (map f l) <= Qsum (map g l)) by (apply IH; intros ??; apply Hf; by right).
  lra.
Qed.

(** The pages of the corpus that belong to a link set are as many as the
    link set has elements, when the links stay inside the corpus. *)
Lemma filter_links_length (ks : list page) (links : gset page) :
  NoDup ks → links ⊆ list_to_set ks →
  length (filter (fun p => p ∈ links) ks) = size links.
Proof.
  intros Hnd Hsub. unfold size, set_size. simpl.
  apply Permutation_length, NoDup_Permutation.
  - by apply NoDup_filter.
  - apply NoDup_elements.
  - intros p. rewrite list_elem_of_filter, elem_of_elements.
    split; [by intros [? _]|]. intros Hp. split; [done|].
    apply Hsub in Hp. by apply elem_of_list_to_set in Hp.
Qed.

Lemma Qsum_indicator (x : Q) (links : gset page) (ks : list page) :
  Qsum (map (fun p => if decide (p ∈ links) then x else 0) ks)
  == Qnat (length (filter (fun p => p ∈ links) ks)) * x.
Proof.
  induction ks as [|k ks IH]; simpl.
  - unfold Qnat. simpl. ring.
  - rewrite IH. rewrite filter_cons.
    destruct (decide (k ∈ links)); simpl length; [rewrite Qnat_S|]; ring.
Qed.

(** The mass a page [q] hands out over the whole corpus in the damping
    branch of [transition_model]: all of it when [q] has links, nothing
    when it has none. *)
Lemma Qsum_links (ks : list page) (links : gset page) :
  NoDup ks → links ⊆ list_to_set ks → links ≠ ∅ →
  Qsum (map (fun p => if decide (p ∈ links) then 1 / Qnat (size links) else 0) ks) == 1.
Proof.
  intros Hnd Hsub Hne. rewrite Qsum_indicator, filter_links_length by done.
  assert (0 < Qnat (size links)).
  { apply Qnat_pos. destruct (decide (size links = 0%nat)) as [H0|]; [|lia].
    apply size_empty_inv in H0. by apply leibniz_equiv in H0. }
  field. lra.
Qed.

Lemma values_map_keys {V} (f : string → V) (ks : list string) :
  Dict.values (map (fun item => (item, f item)) ks) = map f ks.
Proof. unfold Dict.values. by rewrite map_map. Qed.

Lemma at_map_keys (f : string → Q) (ks : list string) k :
  k ∈ ks → at_ (map (fun item => (item, f item)) ks) k = f k.
Proof. intros Hk. unfold at_. by rewrite get_map_keys. Qed.

Lemma valid_links c page links :
  valid_corpus c → Dict.get c page = Some links →
  links ⊆ list_to_set (Dict.keys c).
Proof.
  intros (_ & _ & Hall) Hget%get_elem_of.
  rewrite Forall_forall in Hall. by apply (Hall (page, links)).
Qed.

(** The total of the values [transition_model] returns. *)
Lemma transition_model_total c page links d :
  valid_corpus c → Dict.get c page = Some links →
  ∃ t, transition_model c page d = Returns t
       ∧ Qsum (Dict.values t) == if decide (links = ∅) then 1 - d else 1.
Proof.
  intros Hv Hget. pose proof Hv as (Hne & Hnd & _).
  rewrite (transition_model_eq _ _ _ _ Hnd Hget). eexists. split; [done|].
  rewrite values_map_keys.
  rewrite (Qsum_plus
             (fun item => d * (if decide (item ∈ links) then 1 / Qnat (size links) else 0))
             (fun _ => (1 - d) * (1 / Qnat (length c)))).
  rewrite Qsum_scale, Qsum_const.
  unfold Dict.keys. rewrite length_map.
  pose proof (Qnat_pos _ (length_pos_of_valid _ Hv)).
  destruct (decide (links = ∅)) as [->|Hl].
  - rewrite (Qsum_ext _ (fun _ => 0)).
    + rewrite Qsum_const. field. lra.
    + intros p _. rewrite decide_False; [reflexivity|]. apply not_elem_of_empty.
  - rewrite Qsum_links; [field; lra|done| |done].
    by apply (valid_links _ page).
Qed.

(** ** Claims about transition_model *)

(** C5: for a valid graph, a page with a non-empty link set and a damping
    factor in [0,1], [transition_model] returns one entry per corpus page
    and the entry of [p] is
    damping * (1/|graph[page]| if p is linked from page, else 0)
    + (1 - damping) * (1/N). *)
Theorem transition_model_mixture (c : corpus) (page : page) (links : gset string) (d : Q) :
  valid_corpus c → Dict.get c page = Some links → links ≠ ∅ → 0 <= d <= 1 →
  ∃ t, transition_model c page d = Returns t
       ∧ Dict.keys t = Dict.keys c
       ∧ ∀ p, p ∈ Dict.keys c →
           at_ t p == d * (if decide (p ∈ links) then 1 / Qnat (size links) else 0)
                      + (1 - d) * (1 / Qnat (length c)).
Proof.
  intros (_ & Hnd & _) Hget _ _.
  rewrite (transition_model_eq _ _ _ _ Hnd Hget). eexists. split; [done|].
  split; [apply keys_map_keys|].
  intros p Hp. by rewrite at_map_keys.
Qed.

Lemma transition_model_mixture_witness :
  valid_corpus corpus_abc
  ∧ Dict.get corpus_abc "A" = Some {["B"%string; "C"%string]}
  ∧ 0 <= 85 # 100 <= 1
  ∧ ∃ t, transition_model corpus_abc "A" (85 # 100) = Returns t
         ∧ Dict.keys t = Dict.keys corpus_abc
         ∧ ∀ p, p ∈ Dict.keys corpus_abc →
             at_ t p == (85 # 100)
                        * (if decide (p ∈ ({["B"%string; "C"%string]} : gset string))
                           then 1 / Qnat (size ({["B"%string; "C"%string]} : gset string))
                           else 0)
                        + (1 - (85 # 100)) * (1 / Qnat (length corpus_abc)).
Proof.
  assert (Hv : valid_corpus corpus_abc)
    by (apply (bool_decide_unpack _); vm_compute; exact I).
  assert (Hd : 0 <= 85 # 100 <= 1) by (split; discriminate).
  split; [exact Hv|]. split; [reflexivity|]. split; [exact Hd|].
  apply (transition_model_mixture corpus_abc "A" {["B"%string; "C"%string]} (85 # 100));
    [exact Hv | reflexivity | | exact Hd].
  apply (bool_decide_unpack _). vm_compute. exact I.
Defined.

(** C8: with damping 0 every corpus page gets exactly 1/N, whatever the
    links of the current page are. *)
Theorem transition_model_damping_zero (c : corpus) (page : page) :
  valid_corpus c → page ∈ Dict.keys c →
  ∃ t, transition_model c page 0 = Returns t
       ∧ Dict.keys t = Dict.keys c
       ∧ ∀ p, p ∈ Dict.keys c → at_ t p == 1 / Qnat (length c).
Proof.
  intros Hv [links Hget]%get_is_Some. pose proof Hv as (_ & Hnd & _).
  rewrite (transition_model_eq _ _ _ _ Hnd Hget). eexists. split; [done|].
  split; [apply keys_map_keys|].
  intros p Hp. rewrite at_map_keys by done. ring.
Qed.

Lemma transition_model_damping_zero_witness :
  valid_corpus corpus_abc ∧ "B"%string ∈ Dict.keys corpus_abc
  ∧ ∃ t, transition_model corpus_abc "B" 0 = Returns t
         ∧ Dict.keys t = Dict.keys corpus_abc
         ∧ ∀ p, p ∈ Dict.keys corpus_abc → at_ t p == 1 / Qnat (length corpus_abc).
Proof.
  assert (Hv : valid_corpus corpus_abc)
    by (apply (bool_decide_unpack _); vm_compute; exact I).
  assert (Hp : "B"%string ∈ Dict.keys corpus_abc)
    by (apply (bool_decide_unpack _); vm_compute; exact I).
  split; [exact Hv|]. split; [exact Hp|].
  exact (transition_model_damping_zero corpus_abc "B" Hv Hp).
Defined.

(** C10: for a dangling page the damping rows are all zero, so every
    corpus page gets exactly (1 - damping)/N and the values add up to
    1 - damping, not to 1. *)
Theorem transition_model_dangling (c : corpus) (page : page) (d : Q) :
  valid_corpus c → Dict.get c page = Some ∅ → 0 <= d <= 1 →
  ∃ t, transition_model c page d = Returns t
       ∧ Dict.keys t = Dict.keys c
       ∧ (∀ p, p ∈ Dict.keys c → at_ t p == (1 - d) / Qnat (length c))
       ∧ Qsum (Dict.values t) == 1 - d.
Proof.
  intros Hv Hget _. pose proof Hv as (_ & Hnd & _).
  destruct (transition_model_total c page ∅ d Hv Hget) as (t & Ht & Hsum).
  exists t. split; [done|].
  rewrite (transition_model_eq _ _ _ _ Hnd Hget) in Ht. injection Ht as <-.
  split; [apply keys_map_keys|]. split; [|by rewrite Hsum, decide_True].
  intros p Hp. rewrite at_map_keys by done.
  rewrite decide_False by apply not_elem_of_empty.
  pose proof (Qnat_pos _ (length_pos_of_valid _ Hv)). field. lra.
Qed.

Lemma transition_model_dangling_witness :
  valid_corpus corpus_abc ∧ Dict.get corpus_abc "B" = Some ∅
  ∧ 0 <= 85 # 100 <= 1
  ∧ ∃ t, transition_model corpus_abc "B" (85 # 100) = Returns t
         ∧ Dict.keys t = Dict.keys corpus_abc
         ∧ (∀ p, p ∈ Dict.keys corpus_abc →
              at_ t p == (1 - (85 # 100)) / Qnat (length corpus_abc))
         ∧ Qsum (Dict.values t) == 1 - (85 # 100).
Proof.
  assert (Hv : valid_corpus corpus_abc)
    by (apply (bool_decide_unpack _); vm_compute; exact I).
  assert (Hd : 0 <= 85 # 100 <= 1) by (split; discriminate).
  split; [exact Hv|]. split; [reflexivity|]. split; [exact Hd|].
  exact (transition_model_dangling corpus_abc "B" (85 # 100) Hv eq_refl Hd).
Defined.

(** C1, at the dangling page B of the graph A -> {B, C}, B -> {}, C -> {A}
    with damping 0.85: every page gets 0.05 and the values add up to 0.15,
    not to 1. *)
Theorem transition_model_dangling_not_distribution :
  valid_corpus corpus_abc ∧ "B"%string ∈ Dict.keys corpus_abc ∧ 0 <= 85 # 100 <= 1
  ∧ ∃ t, transition_model corpus_abc "B" (85 # 100) = Returns t
         ∧ Dict.keys t = ["A"; "B"; "C"]%string
         ∧ (∀ p, p ∈ Dict.keys t → at_ t p == 5 # 100)
         ∧ Qsum (Dict.values t) == 15 # 100
         ∧ ¬ Qsum (Dict.values t) == 1.
Proof.
  split; [apply valid_corpus_abc|].
  split; [apply (bool_decide_unpack _); vm_compute; exact I|].
  split; [split; discriminate|].
  eexists. split; [by vm_compute|]. split; [done|]. split; [|split].
  - intros p Hp. simpl in Hp.
    repeat (apply elem_of_cons in Hp as [->|Hp]; [by vm_compute|]).
    by apply elem_of_nil in Hp.
  - by vm_compute.
  - by vm_compute.
Qed.

(** ** iterate_pagerank: the pieces around the loop *)

Lemma at_set_eq (pr : dict Q) k v : at_ (Dict.set pr k v) k = v.
Proof. unfold at_. by rewrite get_set_eq. Qed.

Lemma at_set_ne (pr : dict Q) k k' v : k ≠ k' → at_ (Dict.set pr k v) k' = at_ pr k'.
Proof. intros. unfold at_. by rewrite get_set_ne. Qed.

(** [pagerank[key]] hits an entry for every key the dictionary has. *)
Lemma at_hit (pr : dict Q) k : k ∈ Dict.keys pr → Dict.get pr k = Some (at_ pr k).
Proof. intros [v Hv]%get_is_Some. unfold at_. by rewrite Hv. Qed.

Lemma set_nonempty {V} (d : dict V) k v : Dict.set d k v ≠ [].
Proof. destruct d as [|[k' v'] d]; simpl; [done|]. by destruct (decide (k' = k)). Qed.

Lemma divide_fold (N : Q) (items s : dict Q) :
  NoDup (Dict.keys items) → Dict.keys items ⊆ Dict.keys s →
  let r := fold_left (fun pr '(key, _) => Dict.set pr key (at_ pr key / N)) items s in
  Dict.keys r = Dict.keys s
  ∧ ∀ k, Dict.get r k
         = if decide (k ∈ Dict.keys items) then Some (at_ s k / N) else Dict.get s k.
Proof.
  revert s. induction items as [|[k0 v0] items IH]; intros s Hnd Hsub; simpl.
  - by split.
  - apply NoDup_cons in Hnd as [Hk0 Hnd]. simpl in Hsub.
    assert (Hk0s : k0 ∈ Dict.keys s) by (apply Hsub; left).
    destruct (IH (Dict.set s k0 (at_ s k0 / N)) Hnd) as [Hkeys Hget].
    { rewrite keys_set by done. intros k Hk. apply Hsub. by right. }
    split; [by rewrite Hkeys, keys_set|].
    intros k. rewrite Hget.
    destruct (decide (k0 = k)) as [->|Hne].
    + rewrite decide_False by done. rewrite get_set_eq.
      rewrite decide_True by left. done.
    + rewrite at_set_ne, get_set_ne by done.
      destruct (decide (k ∈ Dict.keys items)).
      * rewrite decide_True by (by right). done.
      * rewrite decide_False; [done|]. intros [?|?]%elem_of_cons; congruence.
Qed.

(** The closing loop divides every value by N and keeps the keys. *)
Lemma divide_all_eq (N : Q) (pr : dict Q) :
  NoDup (Dict.keys pr) →
  Dict.keys (divide_all N pr) = Dict.keys pr
  ∧ ∀ k, k ∈ Dict.keys pr → at_ (divide_all N pr) k = at_ pr k / N.
Proof.
  intros Hnd. destruct (divide_fold N pr pr Hnd) as [Hkeys Hget]; [done|].
  split; [done|]. intros k Hk. unfold at_ at 1. unfold divide_all.
  by rewrite Hget, decide_True.
Qed.

Lemma keys_update_page c N d pr p :
  p ∈ Dict.keys pr → Dict.keys (update_page c N d pr p) = Dict.keys pr.
Proof. intros. unfold update_page. by rewrite keys_set. Qed.

Lemma keys_fold_update c N d ps pr :
  ps ⊆ Dict.keys pr →
  Dict.keys (fold_left (update_page c N d) ps pr) = Dict.keys pr.
Proof.
  revert pr. induction ps as [|p ps IH]; intros pr Hsub; simpl; [done|].
  rewrite IH.
  - apply keys_update_page, Hsub. left.
  - rewrite keys_update_page by (apply Hsub; left). intros k Hk. apply Hsub. by right.
Qed.

Lemma keys_sweep c N d pr :
  Dict.keys pr = Dict.keys c → Dict.keys (sweep c N d pr) = Dict.keys c.
Proof.
  intros Hk. unfold sweep. rewrite keys_fold_update; [done|]. by rewrite Hk.
Qed.

Lemma at_fold_update_other c N d ps pr k :
  k ∉ ps → at_ (fold_left (update_page c N d) ps pr) k = at_ pr k.
Proof.
  revert pr. induction ps as [|p ps IH]; intros pr Hk; simpl; [done|].
  apply not_elem_of_cons in Hk as [Hne Hk].
  rewrite IH by done. unfold update_page. by rewrite at_set_ne.
Qed.

Lemma fold_update_nonempty c N d ps pr :
  pr ≠ [] → fold_left (update_page c N d) ps pr ≠ [].
Proof.
  revert pr. induction ps as [|p ps IH]; intros pr Hne; simpl; [done|].
  apply IH. apply set_nonempty.
Qed.

Lemma keys_initial_ranks c : Dict.keys (initial_ranks c) = Dict.keys c.
Proof. apply keys_map_keys. Qed.

Lemma iterate_pagerank_unfold fuel c d :
  NoDup (Dict.keys c) →
  iterate_pagerank fuel c d
  = match iterate_loop fuel c (Qnat (length c)) d (initial_ranks c)
            (Dict.const (Dict.keys c) 0) with
    | Some (Returns pagerank) => Some (Returns (divide_all (Qnat (length c)) pagerank))
    | r => r
    end.
Proof.
  intros Hnd. unfold iterate_pagerank.
  by rewrite (fold_set_const (fun _ => 1 / Qnat (length c)) _ 0 Hnd).
Qed.

(** ** iterate_pagerank: the loop *)

Lemma iterate_loop_more_fuel fuel fuel' c N d pr prev r :
  iterate_loop fuel c N d pr prev = Some r → (fuel ≤ fuel')%nat →
  iterate_loop fuel' c N d pr prev = Some r.
Proof.
  revert fuel' pr prev. induction fuel as [|fuel IH]; intros fuel' pr prev; [done|].
  intros Hrun Hle. destruct fuel' as [|fuel']; [lia|]. simpl in *.
  destruct (py_max _) as [diff|e]; [|done].
  destruct (Qlt_le_dec diff threshold); [done|].
  apply IH; [done|lia].
Qed.

Lemma iterate_pagerank_more_fuel fuel fuel' c d r :
  iterate_pagerank fuel c d = Some r → (fuel ≤ fuel')%nat →
  iterate_pagerank fuel' c d = Some r.
Proof.
  unfold iterate_pagerank. intros Hrun Hle.
  destruct (iterate_loop fuel _ _ _ _ _) as [r0|] eqn:Hloop; [|by destruct r].
  by rewrite (iterate_loop_more_fuel _ _ _ _ _ _ _ _ Hloop Hle).
Qed.

(** C9: the result of [iterate_pagerank] is a function of the graph and
    the damping factor: whenever two runs on the same arguments finish
    (however many rounds each was allowed), they give the same outcome,
    the same keys in the same order with the same values. *)
Theorem iterate_pagerank_deterministic (c : corpus) (d : Q) (fuel1 fuel2 : nat)
    (r1 r2 : outcome (dict Q)) :
  iterate_pagerank fuel1 c d = Some r1 →
  iterate_pagerank fuel2 c d = Some r2 →
  r1 = r2.
Proof.
  intros H1 H2.
  apply (iterate_pagerank_more_fuel _ (fuel1 `max` fuel2)) in H1; [|lia].
  apply (iterate_pagerank_more_fuel _ (fuel1 `max` fuel2)) in H2; [|lia].
  congruence.
Qed.

Lemma iterate_pagerank_deterministic_witness :
  ∃ r1 r2,
    iterate_pagerank 2 corpus_a (85 # 100) = Some r1
    ∧ iterate_pagerank 3 corpus_a (85 # 100) = Some r2
    ∧ r1 = r2.
Proof.
  eexists _, _. split; [vm_compute; reflexivity|]. split; [vm_compute; reflexivity|].
  apply (iterate_pagerank_deterministic corpus_a (85 # 100) 2 3);
    vm_compute; reflexivity.
Defined.

(** ** Inputs the specification calls invalid *)

Lemma random_choice_elem {A} (g : rng) (seq : list A) :
  seq ≠ [] → ∃ x, random_choice g seq = Returns x ∧ x ∈ seq.
Proof.
  intros Hne. unfold random_choice.
  assert (Hlt : (randbelow g `mod` length seq < length seq)%nat).
  { apply Nat.mod_upper_bound. by destruct seq. }
  apply lookup_lt_is_Some in Hlt as [x Hx]. rewrite Hx.
  exists x. split; [done|]. by apply list_elem_of_lookup_2 in Hx.
Qed.

Lemma keys_nonempty {V} (d : dict V) : d ≠ [] → Dict.keys d ≠ [].
Proof. by destruct d. Qed.

(** The closing loop of [sample_pagerank] when [n] is not zero: it keeps
    the keys of [pagerank] and stores [value / n] under every key of
    [samples]. *)
Lemma normalise_spec (items : dict Z) (n : Z) (pr : dict Q) :
  n ≠ 0%Z → NoDup (Dict.keys items) → Dict.keys items ⊆ Dict.keys pr →
  ∃ r, normalise items n pr = Returns r
       ∧ Dict.keys r = Dict.keys pr
       ∧ ∀ k, Dict.get r k
              = match Dict.get items k with
                | Some value => Some (inject_Z value / inject_Z n)
                | None => Dict.get pr k
                end.
Proof.
  intros Hn. revert pr. induction items as [|[k0 v0] items IH]; intros pr Hnd Hsub; simpl.
  - by exists pr.
  - apply NoDup_cons in Hnd as [Hk0 Hnd]. simpl in Hsub.
    assert (Hk0s : k0 ∈ Dict.keys pr) by (apply Hsub; left).
    unfold true_div. rewrite decide_False by done. simpl.
    destruct (IH (Dict.set pr k0 (inject_Z v0 / inject_Z n)) Hnd) as (r & Hr & Hkeys & Hget).
    { rewrite keys_set by done. intros k Hk. apply Hsub. by right. }
    exists r. split; [done|]. split; [by rewrite Hkeys, keys_set|].
    intros k. rewrite Hget. destruct (decide (k0 = k)) as [->|Hne].
    + simpl in Hk0. apply get_None in Hk0.
      by rewrite Hk0, get_set_eq.
    + by rewrite get_set_ne.
Qed.

Lemma normalise_zero (items : dict Z) (pr : dict Q) :
  items ≠ [] → normalise items 0 pr = Raises ZeroDivisionError.
Proof. by destruct items as [|[k0 v0] items]. Qed.

Lemma get_const {V} (ks : list string) (v : V) k :
  k ∈ ks → Dict.get (Dict.const ks v) k = Some v.
Proof. apply (get_map_keys (fun _ => v)). Qed.

Lemma sample_counts_no_rounds g c d n :
  valid_corpus c → (n <= 0)%Z →
  sample_counts g c d n = Returns (Dict.const (Dict.keys c) 0%Z).
Proof.
  intros (Hne & Hnd & _) Hn. unfold sample_counts.
  destruct (random_choice_elem g (Dict.keys c)) as (p & -> & Hp);
    [by apply keys_nonempty|].
  apply get_is_Some in Hp as [links Hget]. simpl.
  rewrite (transition_model_eq _ _ _ _ Hnd Hget). simpl.
  by replace (Z.to_nat n) with 0%nat by lia.
Qed.

Lemma iterate_loop_no_exception fuel c N d pr prev e :
  pr ≠ [] → iterate_loop fuel c N d pr prev ≠ Some (Raises e).
Proof.
  revert pr prev. induction fuel as [|fuel IH]; intros pr prev Hne; simpl; [done|].
  pose proof (fold_update_nonempty c N d (Dict.keys c) pr Hne) as Hs.
  fold (sweep c N d pr) in Hs.
  destruct (sweep c N d pr) as [|[k v] s] eqn:Hsw; [done|]. simpl.
  destruct (Qlt_le_dec _ threshold); [done|]. by apply IH.
Qed.

Lemma fold_set_nonempty {V} (f : string → V) ks (a : dict V) :
  a ≠ [] → fold_left (fun pr item => Dict.set pr item (f item)) ks a ≠ [].
Proof.
  revert a. induction ks as [|k ks IH]; intros a Ha; simpl; [done|].
  apply IH, set_nonempty.
Qed.

Lemma iterate_pagerank_no_exception fuel c d e :
  c ≠ [] → iterate_pagerank fuel c d ≠ Some (Raises e).
Proof.
  intros Hne. unfold iterate_pagerank.
  match goal with
  | |- context [iterate_loop fuel c ?N d ?pr ?prev] =>
      pose proof (iterate_loop_no_exception fuel c N d pr prev e) as Hloop;
      destruct (iterate_loop fuel c N d pr prev) as [[v|e']|] eqn:Hrun
  end; [done| |done].
  intros [= ->]. apply Hloop; [|done].
  apply fold_set_nonempty. by destruct c.
Qed.

(** C4, as the program behaves: neither function inspects its arguments
    on entry.  An empty graph makes [sample_pagerank] stop with
    [IndexError] at its first statement, whatever the damping factor and
    the sample count are, and [iterate_pagerank] stop with [ValueError]
    at [max] of an empty list, after the loop over no page.  A sample
    count of 0 is found out by the division of the closing loop
    ([ZeroDivisionError]); a negative count is not found out at all: the
    function returns, every rank 0.  [iterate_pagerank] raises nothing on
    a non-empty graph, whatever the damping factor. *)
Theorem no_entry_checks (c : corpus) (d : Q) :
  valid_corpus c → 0 <= d <= 1 →
  (∀ (g : rng) (d' : Q) (n : Z), sample_pagerank g [] d' n = Raises IndexError)
  ∧ (∀ (fuel : nat) (d' : Q),
       iterate_pagerank (S fuel) [] d' = Some (Raises ValueError))
  ∧ (∀ g : rng, sample_pagerank g c d 0 = Raises ZeroDivisionError)
  ∧ (∀ (g : rng) (n : Z), (n < 0)%Z →
       ∃ v, sample_pagerank g c d n = Returns v
            ∧ Dict.keys v = Dict.keys c
            ∧ ∀ p, p ∈ Dict.keys c → at_ v p == 0)
  ∧ ∀ (fuel : nat) (d' : Q) (e : exn),
      iterate_pagerank fuel c d' ≠ Some (Raises e).
Proof.
  intros Hv Hd. pose proof Hv as (Hne & Hnd & _).
  split; [done|]. split; [done|].
  split; [|split].
  - intros g. unfold sample_pagerank.
    rewrite (sample_counts_no_rounds g c d 0 Hv) by lia. simpl.
    apply normalise_zero. unfold Dict.const.
    destruct c; [done|]. done.
  - intros g n Hneg. unfold sample_pagerank.
    rewrite (sample_counts_no_rounds g c d n Hv) by lia. simpl.
    destruct (normalise_spec (Dict.const (Dict.keys c) 0%Z) n (Dict.const (Dict.keys c) 0))
      as (v & Hrun & Hkeys & Hget).
    + lia.
    + by rewrite keys_const.
    + by rewrite !keys_const.
    + exists v. split; [done|]. split; [by rewrite Hkeys, keys_const|].
      intros p Hp. unfold at_. rewrite Hget, get_const by done. simpl.
      unfold Qdiv. ring.
  - intros fuel d' e. by apply iterate_pagerank_no_exception.
Qed.

Lemma no_entry_checks_witness :
  valid_corpus corpus_abc ∧ 0 <= 85 # 100 <= 1
  ∧ sample_pagerank rng0 [] (85 # 100) 10000 = Raises IndexError
  ∧ iterate_pagerank 1 [] (85 # 100) = Some (Raises ValueError)
  ∧ sample_pagerank rng0 corpus_abc (85 # 100) 0 = Raises ZeroDivisionError
  ∧ (∃ v, sample_pagerank rng0 corpus_abc (85 # 100) (-3) = Returns v
          ∧ Dict.keys v = Dict.keys corpus_abc
          ∧ ∀ p, p ∈ Dict.keys corpus_abc → at_ v p == 0)
  ∧ ∀ e, iterate_pagerank 0 corpus_abc 2 ≠ Some (Raises e).
Proof.
  assert (Hv : valid_corpus corpus_abc)
    by (apply (bool_decide_unpack _); vm_compute; exact I).
  assert (Hd : 0 <= 85 # 100 <= 1) by (split; discriminate).
  destruct (no_entry_checks corpus_abc (85 # 100) Hv Hd)
    as (H1 & H2 & H3 & H4 & H5).
  split; [exact Hv|]. split; [exact Hd|].
  split; [exact (H1 rng0 (85 # 100) 10000%Z)|].
  split; [exact (H2 0%nat (85 # 100))|].
  split; [exact (H3 rng0)|].
  split; [apply (H4 rng0 (-3)%Z); lia | exact (H5 0%nat 2)].
Defined.

(** C4, against the claim: damping 2 is outside [0,1], yet
    [iterate_pagerank] on the one-page graph A -> {} returns normally,
    with rank 1 for A, after two rounds. *)
Lemma iterate_pagerank_accepts_damping_2 :
  ¬ (0 <= 2 <= 1)
  ∧ iterate_pagerank 2 corpus_a 2 = Some (Returns [("A"%string, 1)]).
Proof. split; [intros [_ H]; lra | by vm_compute]. Qed.

(** ** iterate_pagerank: one update *)

Lemma Qsum_filter {A} (P : A → Prop) `{∀ a, Decision (P a)} (f : A → Q) (l : list A) :
  Qsum (map f (filter P l)) == Qsum (map (fun a => if decide (P a) then f a else 0) l).
Proof.
  induction l as [|a l IH]; simpl; [reflexivity|].
  rewrite filter_cons. destruct (decide (P a)); simpl; rewrite IH; ring.
Qed.

Lemma size_zero_empty (links : gset page) : size links = 0%nat ↔ links = ∅.
Proof. rewrite size_empty_iff. split; [apply leibniz_equiv | by intros ->]. Qed.

Lemma inflow_fold (N : Q) pr p (c : corpus) (acc : Q) :
  fold_left
    (fun rank '(key, links) =>
       let rank :=
         if decide (size links = 0%nat) then rank + at_ pr key / N
         else rank in
       if decide (p ∈ links)
       then rank + at_ pr key / Qnat (size links)
       else rank)
    c acc
  == acc + Qsum (map (inflow_term N pr p) c).
Proof.
  revert acc. induction c as [|[key links] c IH]; intros acc; simpl; [ring|].
  rewrite IH. unfold inflow_term at 2. simpl.
  repeat case_decide;
    try (match goal with H : size _ = 0%nat |- _ => apply size_zero_empty in H end; done);
    try (match goal with H : links = ∅ |- _ => apply size_zero_empty in H end; done);
    try done; unfold Qdiv; ring.
Qed.

Lemma inflow_sum c N pr p :
  inflow c N pr p == Qsum (map (inflow_term N pr p) c).
Proof. unfold inflow. rewrite inflow_fold. ring. Qed.

Lemma inflow_split c N pr p :
  inflow c N pr p
  == Qsum (map (fun e => at_ pr e.1 / Qnat (size e.2)) (filter (fun e => p ∈ e.2) c))
     + Qsum (map (fun e => at_ pr e.1 / N) (filter (fun e => e.2 = ∅) c)).
Proof.
  rewrite inflow_sum, !Qsum_filter.
  rewrite <-(Qsum_plus
    (fun e => if decide (p ∈ e.2) then at_ pr e.1 / Qnat (size e.2) else 0)
    (fun e => if decide (e.2 = ∅) then at_ pr e.1 / N else 0)).
  apply Qsum_ext. intros e _. unfold inflow_term. repeat case_decide; ring.
Qed.

(** One update, divided by N, is the recurrence of the specification on
    the dictionary as it stands, divided by N. *)
Lemma update_is_recurrence c d pr p :
  c ≠ [] →
  ((1 - d) + d * inflow c (Qnat (length c)) pr p) / Qnat (length c)
  == spec_recurrence c d (fun q => at_ pr q / Qnat (length c)) p.
Proof.
  intros Hne.
  assert (HN : 0 < Qnat (length c)).
  { apply Qnat_pos. destruct c; [done|simpl; lia]. }
  unfold spec_recurrence. cbv zeta. rewrite inflow_split.
  set (N := Qnat (length c)) in *.
  rewrite (Qsum_ext (fun e => at_ pr e.1 / N / Qnat (size e.2))
             (fun e => /N * (at_ pr e.1 / Qnat (size e.2)))).
  2:{ intros e _. unfold Qdiv. ring. }
  rewrite (Qsum_ext (fun e => at_ pr e.1 / N / N) (fun e => /N * (at_ pr e.1 / N))).
  2:{ intros e _. unfold Qdiv. ring. }
  rewrite !Qsum_scale. unfold Qdiv. ring.
Qed.

(** C2, against the claim: on the graph A -> {B}, B -> {A} with damping
    0.85 the first update of the first round stores 0.575 under A, while
    the recurrence of the specification on the vector before that update
    (1/2, 1/2) gives 0.5. *)
Lemma first_update_is_not_the_recurrence :
  valid_corpus corpus_ab ∧ 0 <= 85 # 100 <= 1
  ∧ at_ (update_page corpus_ab (Qnat (length corpus_ab)) (85 # 100)
           (initial_ranks corpus_ab) "A") "A" == 575 # 1000
  ∧ spec_recurrence corpus_ab (85 # 100) (at_ (initial_ranks corpus_ab)) "A" == 1 # 2
  ∧ ¬ at_ (update_page corpus_ab (Qnat (length corpus_ab)) (85 # 100)
             (initial_ranks corpus_ab) "A") "A"
      == spec_recurrence corpus_ab (85 # 100) (at_ (initial_ranks corpus_ab)) "A".
Proof.
  split; [apply valid_corpus_ab|]. split; [split; discriminate|].
  split; [by vm_compute|]. split; [by vm_compute|]. by vm_compute.
Qed.

(** C2, as the program computes: an update of page [p] leaves the other
    pages alone and stores under [p]
    (1 - damping) + damping * (sum over the pages q linking to p of
    rank(q)/outdegree(q) + sum over the dangling pages q of rank(q)/N),
    read from the dictionary as it stands at that moment.  This is N times
    the recurrence of the specification: divided by N, as the function
    divides its final vector, the stored value is the recurrence applied
    to the current dictionary divided by N. *)
Theorem update_page_recurrence (c : corpus) (d : Q) (pr : dict Q) (p : page) :
  valid_corpus c → 0 <= d <= 1 → Dict.keys pr = Dict.keys c → p ∈ Dict.keys c →
  let N := Qnat (length c) in
  at_ (update_page c N d pr p) p
  == (1 - d)
     + d * (Qsum (map (fun e => at_ pr e.1 / Qnat (size e.2))
                    (filter (fun e => p ∈ e.2) c))
            + Qsum (map (fun e => at_ pr e.1 / N) (filter (fun e => e.2 = ∅) c)))
  ∧ at_ (update_page c N d pr p) p / N
    == spec_recurrence c d (fun q => at_ pr q / N) p
  ∧ ∀ q, q ≠ p → at_ (update_page c N d pr p) q = at_ pr q.
Proof.
  intros (Hne & _ & _) _ Hkeys Hp N. unfold update_page.
  rewrite at_set_eq. split; [|split].
  - by rewrite inflow_split.
  - by apply update_is_recurrence.
  - intros q Hq. by rewrite at_set_ne.
Qed.

Lemma update_page_recurrence_witness :
  valid_corpus corpus_ab ∧ 0 <= 85 # 100 <= 1
  ∧ Dict.keys (initial_ranks corpus_ab) = Dict.keys corpus_ab
  ∧ "A"%string ∈ Dict.keys corpus_ab
  ∧ at_ (update_page corpus_ab (Qnat (length corpus_ab)) (85 # 100)
           (initial_ranks corpus_ab) "A") "A" / Qnat (length corpus_ab)
    == spec_recurrence corpus_ab (85 # 100)
         (fun q => at_ (initial_ranks corpus_ab) q / Qnat (length corpus_ab)) "A".
Proof.
  assert (Hv : valid_corpus corpus_ab)
    by (apply (bool_decide_unpack _); vm_compute; exact I).
  assert (Hd : 0 <= 85 # 100 <= 1) by (split; discriminate).
  assert (Hk : Dict.keys (initial_ranks corpus_ab) = Dict.keys corpus_ab)
    by reflexivity.
  assert (Hp : "A"%string ∈ Dict.keys corpus_ab)
    by (apply (bool_decide_unpack _); vm_compute; exact I).
  split; [exact Hv|]. split; [exact Hd|]. split; [exact Hk|]. split; [exact Hp|].
  exact (proj1 (proj2
    (update_page_recurrence corpus_ab (85 # 100) (initial_ranks corpus_ab) "A"
       Hv Hd Hk Hp))).
Defined.

(** ** iterate_pagerank: rounds *)

Lemma fold_max_spec (l : list Q) (x : Q) :
  let m := fold_left (fun m y => if Qlt_le_dec m y then y else m) l x in
  (m = x ∨ m ∈ l) ∧ x <= m ∧ ∀ y, y ∈ l → y <= m.
Proof.
  revert x. induction l as [|a l IH]; intros x; simpl.
  - split; [by left|]. split; [lra|]. by intros y ?%elem_of_nil.
  - destruct (Qlt_le_dec x a) as [Hlt|Hle].
    + destruct (IH a) as ([Hm|Hm] & Ha & Hall).
      * split; [right; rewrite Hm; left|]. split; [lra|].
        intros y [->|Hy]%elem_of_cons; [done|auto].
      * split; [right; by right|]. split; [lra|].
        intros y [->|Hy]%elem_of_cons; [done|auto].
    + destruct (IH x) as ([Hm|Hm] & Hx & Hall).
      * split; [by left|]. split; [done|].
        intros y [->|Hy]%elem_of_cons; [lra|auto].
      * split; [right; by right|]. split; [done|].
        intros y [->|Hy]%elem_of_cons; [lra|auto].
Qed.

(** [max] returns an element of the list that no element exceeds. *)
Lemma py_max_spec (l : list Q) (m : Q) :
  py_max l = Returns m → m ∈ l ∧ ∀ y, y ∈ l → y <= m.
Proof.
  destruct l as [|x l]; [done|]. simpl. intros [= <-].
  destruct (fold_max_spec l x) as ([Hm|Hm] & Hx & Hall).
  - split; [rewrite Hm; left|]. intros y [->|Hy]%elem_of_cons; [done|auto].
  - split; [by right|]. intros y [->|Hy]%elem_of_cons; [done|auto].
Qed.

Lemma py_max_nonempty (l : list Q) : l ≠ [] → ∃ m, py_max l = Returns m.
Proof. destruct l; [done|]. simpl. eauto. Qed.

Lemma sweep_nonempty c N d pr : pr ≠ [] → sweep c N d pr ≠ [].
Proof. apply fold_update_nonempty. Qed.

Lemma changes_nonempty prev pr : pr ≠ [] → changes prev pr ≠ [].
Proof. by destruct pr. Qed.

Lemma round_vector_shift c N d pr k :
  round_vector c N d (sweep c N d pr) k = round_vector c N d pr (S k).
Proof. unfold round_vector. by rewrite Nat.iter_succ_r. Qed.

Lemma stops_in_round_shift c N d pr prev k :
  (1 ≤ k)%nat →
  stops_in_round c N d (sweep c N d pr) (sweep c N d pr) k
  ↔ stops_in_round c N d pr prev (S k).
Proof.
  intros Hk. unfold stops_in_round.
  rewrite round_vector_shift.
  destruct k as [|[|j]]; [lia| |]; simpl round_prev.
  - done.
  - by rewrite round_vector_shift.
Qed.

(** The loop returns the dictionary of the first round whose test
    succeeds, and only that. *)
Lemma iterate_loop_rounds fuel c N d pr prev v :
  pr ≠ [] →
  iterate_loop fuel c N d pr prev = Some (Returns v)
  ↔ ∃ k, (1 ≤ k ≤ fuel)%nat
         ∧ v = round_vector c N d pr k
         ∧ stops_in_round c N d pr prev k
         ∧ ∀ j, (1 ≤ j < k)%nat → ¬ stops_in_round c N d pr prev j.
Proof.
  revert pr prev. induction fuel as [|fuel IH]; intros pr prev Hne.
  - simpl. split; [done|]. intros (k & ? & _). lia.
  - simpl iterate_loop.
    pose proof (sweep_nonempty c N d pr Hne) as Hs.
    destruct (py_max_nonempty _ (changes_nonempty prev _ Hs)) as [diff Hdiff].
    rewrite Hdiff.
    assert (H1 : stops_in_round c N d pr prev 1 ↔ diff < threshold).
    { unfold stops_in_round. simpl. rewrite Hdiff. split.
      - by intros (? & [= <-] & ?).
      - intros ?. by exists diff. }
    destruct (Qlt_le_dec diff threshold) as [Hlt|Hge].
    + split.
      * intros [= <-]. exists 1%nat. split; [lia|]. split; [done|].
        split; [by apply H1|]. intros j ?. lia.
      * intros (k & Hk & -> & Hstop & Hfirst).
        destruct (decide (k = 1%nat)) as [->|Hk1]; [done|].
        exfalso. apply (Hfirst 1%nat); [lia|]. by apply H1.
    + rewrite (IH _ _ Hs). split.
      * intros (k & Hk & -> & Hstop & Hfirst). exists (S k).
        split; [lia|]. split; [by rewrite round_vector_shift|].
        split; [by apply stops_in_round_shift; [lia|]|].
        intros j Hj. destruct (decide (j = 1%nat)) as [->|Hj1].
        -- rewrite H1. lra.
        -- destruct j as [|j]; [lia|].
           rewrite <-stops_in_round_shift by lia. apply Hfirst. lia.
      * intros (k & Hk & -> & Hstop & Hfirst).
        destruct k as [|k]; [lia|].
        destruct (decide (k = 0%nat)) as [->|Hk0].
        { apply H1 in Hstop. lra. }
        exists k. split; [lia|]. split; [by rewrite round_vector_shift|].
        split; [by apply (stops_in_round_shift _ _ _ _ prev); [lia|]|].
        intros j Hj. rewrite (stops_in_round_shift _ _ _ _ prev) by lia.
        apply Hfirst. lia.
Qed.

(** The value stored under a page by a sweep is computed from the
    dictionary in which the pages before it are already updated. *)
Lemma sweep_reads_updated c N d pr before p after :
  NoDup (Dict.keys c) → Dict.keys c = before ++ p :: after →
  at_ (sweep c N d pr) p
  = (1 - d) + d * inflow c N (fold_left (update_page c N d) before pr) p.
Proof.
  intros Hnd Hsplit. unfold sweep. rewrite Hsplit, fold_left_app. simpl.
  rewrite Hsplit in Hnd. apply NoDup_app in Hnd as (_ & _ & Hnd).
  apply NoDup_cons in Hnd as [Hp _].
  rewrite at_fold_update_other by done.
  unfold update_page at 1. by rewrite at_set_eq.
Qed.

Lemma elem_of_changes prev pr y :
  NoDup (Dict.keys pr) →
  y ∈ changes prev pr
  ↔ ∃ q, q ∈ Dict.keys pr ∧ y = Qabs (at_ prev q - at_ pr q).
Proof.
  intros Hnd. unfold changes. rewrite list_elem_of_fmap. split.
  - intros ([q x] & -> & Hin). exists q. split.
    + apply list_elem_of_fmap. by exists (q, x).
    + assert (at_ pr q = x) as ->; [|done].
      unfold at_. by rewrite (elem_of_get _ _ _ Hnd Hin).
  - intros (q & Hq & ->). apply at_hit in Hq. exists (q, at_ pr q).
    split; [done|]. by apply get_elem_of.
Qed.

(** The number compared with the threshold is the largest absolute
    difference, over the pages, between [pagerank_prev] and [pagerank]. *)
Lemma max_change_spec prev pr diff :
  NoDup (Dict.keys pr) → py_max (changes prev pr) = Returns diff →
  (∃ q, q ∈ Dict.keys pr ∧ diff = Qabs (at_ prev q - at_ pr q))
  ∧ ∀ q, q ∈ Dict.keys pr → Qabs (at_ prev q - at_ pr q) <= diff.
Proof.
  intros Hnd [Hin Hall]%py_max_spec. split.
  - by apply elem_of_changes in Hin.
  - intros q Hq. apply Hall. apply elem_of_changes; [done|]. by exists q.
Qed.

Lemma initial_ranks_nonempty c : c ≠ [] → initial_ranks c ≠ [].
Proof. by destruct c. Qed.

Lemma iterate_pagerank_rounds fuel c d v :
  valid_corpus c →
  iterate_pagerank fuel c d = Some (Returns v)
  ↔ ∃ k, (1 ≤ k ≤ fuel)%nat
         ∧ v = divide_all (Qnat (length c))
                 (round_vector c (Qnat (length c)) d (initial_ranks c) k)
         ∧ stops_in_round c (Qnat (length c)) d (initial_ranks c)
             (Dict.const (Dict.keys c) 0) k
         ∧ ∀ j, (1 ≤ j < k)%nat →
             ¬ stops_in_round c (Qnat (length c)) d (initial_ranks c)
                 (Dict.const (Dict.keys c) 0) j.
Proof.
  intros (Hne & Hnd & _). rewrite (iterate_pagerank_unfold _ _ _ Hnd).
  pose proof (iterate_loop_rounds fuel c (Qnat (length c)) d (initial_ranks c)
                (Dict.const (Dict.keys c) 0)) as Hloop.
  split.
  - destruct (iterate_loop _ _ _ _ _ _) as [[pr|e]|] eqn:Hrun; [|done..].
    intros [= <-].
    destruct (proj1 (Hloop pr (initial_ranks_nonempty _ Hne)) eq_refl)
      as (k & Hk & -> & Hstop & Hfirst).
    by exists k.
  - intros (k & Hk & -> & Hstop & Hfirst).
    rewrite (proj2 (Hloop (round_vector c (Qnat (length c)) d (initial_ranks c) k)
                      (initial_ranks_nonempty _ Hne))); [done|].
    by exists k.
Qed.

(** C3, against the claim, on the graph A -> {B}, B -> {A}.  With damping
    0.85 the first round stores 0.575 under A and then 0.63875 under B,
    computed from the new value of A; from the vector before the round B
    would get 0.575.  With damping 1 the first round leaves the vector
    (1/2, 1/2) as it is, a change of 0 < 0.001, and the loop goes on: the
    first test compares with the all-zero dictionary. *)
Lemma sweep_is_not_synchronous :
  valid_corpus corpus_ab
  ∧ at_ (sweep corpus_ab (Qnat 2) (85 # 100) (initial_ranks corpus_ab)) "B"
    == 63875 # 100000
  ∧ at_ (spec_synchronous_sweep corpus_ab (Qnat 2) (85 # 100)
           (initial_ranks corpus_ab)) "B" == 575 # 1000
  ∧ ¬ at_ (sweep corpus_ab (Qnat 2) (85 # 100) (initial_ranks corpus_ab)) "B"
      == at_ (spec_synchronous_sweep corpus_ab (Qnat 2) (85 # 100)
                (initial_ranks corpus_ab)) "B"
  ∧ (∃ diff, py_max (changes (initial_ranks corpus_ab)
                       (sweep corpus_ab (Qnat 2) 1 (initial_ranks corpus_ab)))
             = Returns diff
             ∧ diff == 0 ∧ diff < threshold)
  ∧ iterate_pagerank 1 corpus_ab 1 = None.
Proof.
  split; [apply valid_corpus_ab|].
  split; [by vm_compute|]. split; [by vm_compute|]. split; [by vm_compute|].
  split; [|by vm_compute].
  eexists. split; [vm_compute; reflexivity|]. split; by vm_compute.
Qed.

(** C3, as the program iterates.  A round updates the pages one after
    the other in the one dictionary: the value stored under a page is
    computed from the dictionary in which the pages before it (in corpus
    order) already hold their new values.  The loop returns after the
    first round whose test succeeds, and the test of a round compares,
    page by page, the dictionary at the end of the round with the copy
    taken at the end of the round before (in the first round: with the
    all-zero dictionary, not with the initial vector 1/N); it succeeds
    when the largest absolute difference is below 0.001. *)
Theorem rounds_in_place_until_small_change (c : corpus) (d : Q) (fuel : nat) (v : dict Q) :
  valid_corpus c →
  let N := Qnat (length c) in
  let x := round_vector c N d (initial_ranks c) in
  let prev := round_prev c N d (initial_ranks c) (Dict.const (Dict.keys c) 0) in
  (∀ pr before p after,
     Dict.keys c = before ++ p :: after →
     at_ (sweep c N d pr) p
     = (1 - d) + d * inflow c N (fold_left (update_page c N d) before pr) p)
  ∧ (iterate_pagerank fuel c d = Some (Returns v)
     ↔ ∃ k, (1 ≤ k ≤ fuel)%nat
            ∧ v = divide_all N (x k)
            ∧ stops_in_round c N d (initial_ranks c) (Dict.const (Dict.keys c) 0) k
            ∧ ∀ j, (1 ≤ j < k)%nat →
                ¬ stops_in_round c N d (initial_ranks c) (Dict.const (Dict.keys c) 0) j)
  ∧ (∀ k, (1 ≤ k)%nat →
       stops_in_round c N d (initial_ranks c) (Dict.const (Dict.keys c) 0) k
       ↔ ∀ q, q ∈ Dict.keys c → Qabs (at_ (prev k) q - at_ (x k) q) < threshold).
Proof.
  intros Hv N x prev. pose proof Hv as (Hne & Hnd & _).
  split; [|split].
  - intros pr before p after Hsplit. by apply (sweep_reads_updated _ _ _ _ _ _ after).
  - by apply iterate_pagerank_rounds.
  - intros k Hk. unfold stops_in_round. fold N. fold (x k). fold (prev k).
    assert (Hkeys : Dict.keys (x k) = Dict.keys c).
    { unfold x, round_vector. clear Hk. induction k as [|k IH]; simpl.
      - apply keys_initial_ranks.
      - by apply keys_sweep. }
    assert (Hxne : x k ≠ []).
    { intros Hx. rewrite Hx in Hkeys. by destruct c. }
    destruct (py_max_nonempty _ (changes_nonempty (prev k) _ Hxne)) as [diff Hdiff].
    rewrite Hdiff.
    destruct (max_change_spec (prev k) (x k) diff) as [(q0 & Hq0 & Hd0) Hall];
      [by rewrite Hkeys|done|].
    rewrite Hkeys in Hq0, Hall. split.
    + intros (? & [= <-] & Hlt) q Hq. specialize (Hall q Hq). lra.
    + intros Hsmall. exists diff. split; [done|]. rewrite Hd0. by apply Hsmall.
Qed.

Lemma rounds_in_place_until_small_change_witness :
  valid_corpus corpus_a
  ∧ (iterate_pagerank 2 corpus_a (85 # 100) = Some (Returns [("A"%string, 1 / 1)])
     ↔ ∃ k, (1 ≤ k ≤ 2)%nat
            ∧ [("A"%string, 1 / 1)]
              = divide_all (Qnat (length corpus_a))
                  (round_vector corpus_a (Qnat (length corpus_a)) (85 # 100)
                     (initial_ranks corpus_a) k)
            ∧ stops_in_round corpus_a (Qnat (length corpus_a)) (85 # 100)
                (initial_ranks corpus_a) (Dict.const (Dict.keys corpus_a) 0) k
            ∧ ∀ j, (1 ≤ j < k)%nat →
                ¬ stops_in_round corpus_a (Qnat (length corpus_a)) (85 # 100)
                    (initial_ranks corpus_a) (Dict.const (Dict.keys corpus_a) 0) j).
Proof.
  assert (Hv : valid_corpus corpus_a)
    by (apply (bool_decide_unpack _); vm_compute; exact I).
  split; [exact Hv|].
  exact (proj1 (proj2
    (rounds_in_place_until_small_change corpus_a (85 # 100) 2
       [("A"%string, 1 / 1)] Hv))).
Defined.

(** ** sample_pagerank *)

Lemma bisect_loop_bound fuel a x lo hi :
  (lo ≤ hi)%nat → (lo ≤ bisect_loop fuel a x lo hi ≤ hi)%nat.
Proof.
  revert lo hi. induction fuel as [|fuel IH]; intros lo hi Hle;
    cbn [bisect_loop]; [lia|].
  destruct (decide (lo < hi)%nat) as [Hlt|]; [|lia].
  cbv zeta. set (mid := ((lo + hi) / 2)%nat).
  assert (lo ≤ mid < hi)%nat as [Hm1 Hm2].
  { split.
    - apply Nat.div_le_lower_bound; lia.
    - apply Nat.Div0.div_lt_upper_bound; lia. }
  destruct (Qlt_le_dec x _).
  - specialize (IH lo mid Hm1). lia.
  - specialize (IH (mid + 1)%nat hi). lia.
Qed.

Lemma random_choices_elem {A} (u : Q) (population : list A) weights x :
  random_choices u population weights = Returns x → x ∈ population.
Proof.
  unfold random_choices. case_decide; [done|].
  destruct (last _) as [total|]; [|done].
  destruct (Qlt_le_dec 0 total); [|done].
  destruct (population !! _) as [y|] eqn:Hy; [|done].
  intros [= <-]. by apply list_elem_of_lookup_2 in Hy.
Qed.

Lemma length_accumulate_from acc ws : length (accumulate_from acc ws) = length ws.
Proof. revert acc. induction ws as [|w ws IH]; intros acc; simpl; [done|]. by rewrite IH. Qed.

Lemma last_accumulate_from acc w ws :
  ∃ t, last (accumulate_from acc (w :: ws)) = Some t ∧ t == acc + Qsum (w :: ws).
Proof.
  revert acc w. induction ws as [|w' ws IH]; intros acc w.
  - simpl. eexists. split; [done|]. ring.
  - destruct (IH (acc + w) w') as (t & Ht & Hsum).
    exists t. split.
    + change (accumulate_from acc (w :: w' :: ws))
        with ((acc + w) :: accumulate_from (acc + w) (w' :: ws)).
      rewrite last_cons, Ht. done.
    + rewrite Hsum. simpl. ring.
Qed.

Lemma last_accumulate w ws :
  ∃ t, last (accumulate (w :: ws)) = Some t ∧ t == Qsum (w :: ws).
Proof.
  destruct ws as [|w' ws].
  - simpl. eexists. split; [done|]. ring.
  - destruct (last_accumulate_from w w' ws) as (t & Ht & Hsum).
    exists t. split; [|by rewrite Hsum].
    unfold accumulate. by rewrite last_cons, Ht.
Qed.

(** [random.choices] returns a member of the population whenever the
    weights are as many as the population and their total is positive. *)
Lemma random_choices_total {A} (u : Q) (population : list A) weights :
  population ≠ [] → length weights = length population → 0 < Qsum weights →
  ∃ x, random_choices u population weights = Returns x ∧ x ∈ population.
Proof.
  intros Hne Hlen Hpos. unfold random_choices.
  destruct weights as [|w ws]; [by destruct population|].
  rewrite decide_False.
  2:{ intros Hl. apply Hl. simpl. rewrite length_accumulate_from. by rewrite <-Hlen. }
  destruct (last_accumulate w ws) as (t & -> & Ht).
  destruct (Qlt_le_dec 0 t) as [_|Hle]; [|rewrite Ht in Hle; lra].
  pose proof (bisect_loop_bound (length population - 1 - 0)
                (accumulate (w :: ws)) (u * t) 0 (length population - 1)) as Hb.
  fold (bisect (accumulate (w :: ws)) (u * t) 0 (length population - 1)) in Hb.
  assert (Hlt : (bisect (accumulate (w :: ws)) (u * t) 0 (length population - 1)
                 < length population)%nat).
  { destruct population; [done|]. simpl in *. lia. }
  apply lookup_lt_is_Some in Hlt as [x Hx]. rewrite Hx.
  exists x. split; [done|]. by apply list_elem_of_lookup_2 in Hx.
Qed.

Lemma transition_model_keys c p d t :
  NoDup (Dict.keys c) → p ∈ Dict.keys c →
  transition_model c p d = Returns t → Dict.keys t = Dict.keys c.
Proof.
  intros Hnd [links Hget]%get_is_Some.
  rewrite (transition_model_eq _ _ _ _ Hnd Hget). intros [= <-].
  apply keys_map_keys.
Qed.

Lemma visits_cons q walk p :
  visits (q :: walk) p = ((if decide (q = p) then 1 else 0) + visits walk p)%Z.
Proof.
  unfold visits. rewrite filter_cons. destruct (decide (q = p)); simpl length; lia.
Qed.

(** The sampling loop counts the pages of its walk: when it returns, the
    count of every page has grown by the number of times the page was
    drawn, and every page drawn is a page of the corpus. *)
Lemma sample_loop_spec g c d k i keys probs (samples s' : dict Z) :
  NoDup (Dict.keys c) → keys ⊆ Dict.keys c → Dict.keys samples = Dict.keys c →
  sample_loop g c d k i keys probs samples = Returns s' →
  ∃ walk, sample_walk g c d k i keys probs = Returns walk
    ∧ length walk = k
    ∧ walk ⊆ Dict.keys c
    ∧ Dict.keys s' = Dict.keys c
    ∧ ∀ p, Dict.get s' p = (fun v => (v + visits walk p)%Z) <$> Dict.get samples p.
Proof.
  intros Hnd. revert i keys probs samples.
  induction k as [|k IH]; intros i keys probs samples Hsub Hkeys; simpl.
  - intros [= <-]. exists []. split; [done|]. split; [done|].
    split; [by intros ? ?%elem_of_nil|]. split; [done|].
    intros p. unfold visits. simpl. destruct (Dict.get samples p) as [x|]; simpl; [|done].
    f_equal. lia.
  - destruct (random_choices (random g i) keys probs) as [page|e] eqn:Hdraw; [|done].
    simpl. apply random_choices_elem in Hdraw. apply Hsub in Hdraw.
    unfold Dict.subscript.
    destruct (Dict.get samples page) as [count|] eqn:Hcount; [|done]. simpl.
    destruct (transition_model c page d) as [t|e] eqn:Ht; [|done]. simpl.
    pose proof (transition_model_keys _ _ _ _ Hnd Hdraw Ht) as Htk.
    intros Hrun.
    apply IH in Hrun as (walk & -> & Hlen & Hin & Hk' & Hget).
    + exists (page :: walk). simpl. split; [done|]. split; [by rewrite Hlen|].
      split; [|split; [done|]].
      * intros q [->|Hq]%elem_of_cons; [done|by apply Hin].
      * intros p. rewrite Hget, visits_cons.
        destruct (decide (page = p)) as [->|Hne].
        -- rewrite get_set_eq, Hcount. simpl. f_equal. lia.
        -- rewrite get_set_ne by done. destruct (Dict.get samples p); simpl; [|done].
           f_equal.
    + by rewrite Htk.
    + rewrite keys_set; [done|]. by rewrite Hkeys.
Qed.

Lemma Qsum_one_hot (ks : list page) (q : page) :
  NoDup ks → q ∈ ks →
  Qsum (map (fun p => inject_Z (if decide (q = p) then 1 else 0)) ks) == 1.
Proof.
  induction ks as [|k ks IH]; [by intros _ ?%elem_of_nil|].
  intros [Hk Hnd]%NoDup_cons Hq. simpl.
  destruct (decide (q = k)) as [->|Hne].
  - rewrite (Qsum_ext _ (fun _ => 0)).
    + rewrite Qsum_const. change (inject_Z 1) with 1. ring.
    + intros p Hp. rewrite decide_False; [reflexivity|]. by intros ->.
  - rewrite IH; [change (inject_Z 0) with 0; ring|done|].
    apply elem_of_cons in Hq as [?|?]; [done|done].
Qed.

(** The visit counts partition the walk. *)
Lemma Qsum_visits (ks walk : list page) :
  NoDup ks → walk ⊆ ks →
  Qsum (map (fun p => inject_Z (visits walk p)) ks) == Qnat (length walk).
Proof.
  intros Hnd. induction walk as [|q walk IH]; intros Hsub.
  - rewrite (Qsum_ext _ (fun _ => 0)) by (intros; reflexivity).
    rewrite Qsum_const. unfold Qnat. simpl. ring.
  - rewrite (Qsum_ext _
      (fun p => inject_Z (if decide (q = p) then 1 else 0) + inject_Z (visits walk p))).
    2:{ intros p _. by rewrite visits_cons, inject_Z_plus. }
    rewrite Qsum_plus, Qsum_one_hot, IH.
    2:{ intros p Hp. apply Hsub. by right. }
    2:{ done. }
    2:{ apply Hsub. left. }
    simpl length. rewrite Qnat_S. ring.
Qed.

Lemma values_at (v : dict Q) :
  NoDup (Dict.keys v) → Dict.values v = map (at_ v) (Dict.keys v).
Proof.
  unfold Dict.values, Dict.keys.
  induction v as [|[k x] v IH]; [done|].
  rewrite !map_cons. simpl fst. simpl snd.
  intros [Hk Hnd]%NoDup_cons. f_equal.
  - unfold at_. simpl. by rewrite decide_True.
  - rewrite IH by done. apply map_ext_in. intros p Hp%list_elem_of_In.
    unfold at_. simpl. rewrite decide_False; [done|]. by intros ->.
Qed.

(** Every vector [sample_pagerank] returns: one entry per corpus page,
    each the visit count of the page divided by [n], the counts being
    those of a walk of [n] pages of the corpus, so that the entries add
    up to 1; for [n = 1] one page has rank 1 and the others 0. *)
Lemma sample_pagerank_counts g c d n v :
  c ≠ [] → NoDup (Dict.keys c) → (1 ≤ n)%Z →
  sample_pagerank g c d n = Returns v →
  ∃ walk, sample_pagerank_walk g c d n = Returns walk
    ∧ Z.of_nat (length walk) = n
    ∧ walk ⊆ Dict.keys c
    ∧ Dict.keys v = Dict.keys c
    ∧ (∀ p, p ∈ Dict.keys c → at_ v p = inject_Z (visits walk p) / inject_Z n)
    ∧ Qsum (Dict.values v) == 1
    ∧ (n = 1%Z →
       ∃ p, p ∈ Dict.keys c ∧ at_ v p == 1
            ∧ ∀ q, q ∈ Dict.keys c → q ≠ p → at_ v q == 0).
Proof.
  intros Hne Hnd Hn. unfold sample_pagerank, sample_counts, sample_pagerank_walk.
  destruct (random_choice_elem g (Dict.keys c)) as (p0 & -> & Hp0);
    [by apply keys_nonempty|]. simpl.
  destruct (transition_model c p0 d) as [t|e] eqn:Ht; [|done]. simpl.
  pose proof (transition_model_keys _ _ _ _ Hnd Hp0 Ht) as Htk.
  destruct (sample_loop _ _ _ _ _ _ _ _) as [samples|e] eqn:Hloop; [|done]. simpl.
  apply sample_loop_spec in Hloop as (walk & Hwalk & Hlen & Hin & Hks & Hget);
    [|done|by rewrite Htk|by rewrite keys_const].
  intros Hnorm. exists walk. split; [done|]. split; [lia|]. split; [done|].
  destruct (normalise_spec samples n (Dict.const (Dict.keys c) 0))
    as (v' & Hv' & Hkv & Hgv); [lia|by rewrite Hks|by rewrite Hks, keys_const|].
  rewrite Hv' in Hnorm. injection Hnorm as ->.
  rewrite keys_const in Hkv.
  assert (Hat : ∀ p, p ∈ Dict.keys c →
                  at_ v p = inject_Z (visits walk p) / inject_Z n).
  { intros p Hp. unfold at_. rewrite Hgv, Hget, get_const by done. simpl.
    by rewrite Z.add_0_l. }
  assert (HnQ : inject_Z n == Qnat (length walk)).
  { unfold Qnat. by replace (Z.of_nat (length walk)) with n by lia. }
  assert (Hpos : 0 < Qnat (length walk)).
  { apply Qnat_pos. lia. }
  split; [done|]. split; [done|]. split.
  - rewrite values_at by (by rewrite Hkv). rewrite Hkv.
    rewrite (Qsum_ext _ (fun p => / inject_Z n * inject_Z (visits walk p))).
    2:{ intros p Hp. rewrite Hat by done. unfold Qdiv. ring. }
    rewrite Qsum_scale, Qsum_visits by done. rewrite HnQ. field. lra.
  - intros ->. destruct walk as [|p [|? ?]]; simpl in Hlen; try lia.
    exists p. split; [apply Hin; left|]. split.
    + rewrite Hat by (apply Hin; left). rewrite visits_cons, decide_True by done.
      by vm_compute.
    + intros q Hq Hne'. rewrite Hat by done.
      rewrite visits_cons, decide_False by done. by vm_compute.
Qed.

(** [sample_pagerank] returns whenever no transition distribution it
    draws from has total weight 0: damping below 1, or no dangling page. *)
Lemma sample_loop_total g c d k i probs (samples : dict Z) :
  valid_corpus c → d < 1 ∨ Forall (fun e => e.2 ≠ ∅) c →
  length probs = length (Dict.keys c) → 0 < Qsum probs →
  Dict.keys samples = Dict.keys c →
  ∃ s', sample_loop g c d k i (Dict.keys c) probs samples = Returns s'.
Proof.
  intros Hv Hpos. pose proof Hv as (Hne & Hnd & _).
  revert i probs samples.
  induction k as [|k IH]; intros i probs samples Hlen Hsum Hkeys; simpl; [eauto|].
  destruct (random_choices_total (random g i) (Dict.keys c) probs)
    as (p & -> & Hp); [by apply keys_nonempty|done..|]. simpl.
  unfold Dict.subscript. rewrite <-Hkeys in Hp.
  pose proof Hp as [count Hcount]%get_is_Some. rewrite Hcount. simpl.
  rewrite Hkeys in Hp. pose proof Hp as [links Hget]%get_is_Some.
  destruct (transition_model_total c p links d Hv Hget) as (t & Ht & Hsumt).
  rewrite Ht. simpl.
  rewrite (transition_model_keys _ _ _ _ Hnd Hp Ht).
  apply IH.
  - rewrite <-(transition_model_keys _ _ _ _ Hnd Hp Ht).
    unfold Dict.values, Dict.keys. by rewrite !length_map.
  - rewrite Hsumt. destruct (decide (links = ∅)) as [->|_]; [|lra].
    destruct Hpos as [?|Hall]; [lra|].
    rewrite Forall_forall in Hall. apply get_elem_of in Hget.
    by specialize (Hall _ Hget).
  - rewrite keys_set; [done|]. by rewrite Hkeys.
Qed.

Lemma sample_pagerank_total g c d n :
  valid_corpus c → d < 1 ∨ Forall (fun e => e.2 ≠ ∅) c → (1 ≤ n)%Z →
  ∃ v, sample_pagerank g c d n = Returns v.
Proof.
  intros Hv Hpos Hn. pose proof Hv as (Hne & Hnd & _).
  unfold sample_pagerank, sample_counts.
  destruct (random_choice_elem g (Dict.keys c)) as (p0 & -> & Hp0);
    [by apply keys_nonempty|]. simpl.
  pose proof Hp0 as [links Hget]%get_is_Some.
  destruct (transition_model_total c p0 links d Hv Hget) as (t & Ht & Hsumt).
  rewrite Ht. simpl. rewrite (transition_model_keys _ _ _ _ Hnd Hp0 Ht).
  destruct (sample_loop_total g c d (Z.to_nat n) 0 (Dict.values t)
              (Dict.const (Dict.keys c) 0%Z) Hv Hpos) as [samples Hloop].
  - rewrite <-(transition_model_keys _ _ _ _ Hnd Hp0 Ht).
    unfold Dict.values, Dict.keys. by rewrite !length_map.
  - rewrite Hsumt. destruct (decide (links = ∅)) as [->|_]; [|lra].
    destruct Hpos as [?|Hall]; [lra|].
    rewrite Forall_forall in Hall. apply get_elem_of in Hget.
    by specialize (Hall _ Hget).
  - by rewrite keys_const.
  - rewrite Hloop. simpl.
    pose proof Hloop as Hspec.
    apply sample_loop_spec in Hspec as (walk & _ & _ & _ & Hks & _);
      [|done|done|by rewrite keys_const].
    destruct (normalise_spec samples n (Dict.const (Dict.keys c) 0))
      as (v & Hv' & _); [lia|by rewrite Hks|by rewrite Hks, keys_const|].
    by exists v.
Qed.

(** C6, at damping 1 on the one-page graph A -> {} with n = 1: the
    transition model gives A the weight 0, [random.choices] refuses
    weights whose total is not positive, and no rank vector comes back,
    whatever the random draws are. *)
Theorem sample_pagerank_zero_weights (g : rng) :
  valid_corpus corpus_a ∧ 0 <= 1 <= 1 ∧ (1 ≤ 1)%Z
  ∧ transition_model corpus_a "A" 1 = Returns [("A"%string, 1 * 0 + (1 - 1) * (1 / Qnat 1))]
  ∧ sample_pagerank g corpus_a 1 1 = Raises ValueError.
Proof.
  split; [apply valid_corpus_a|]. split; [split; discriminate|]. split; [lia|].
  split; [reflexivity|].
  unfold sample_pagerank, sample_counts, random_choice. simpl length.
  rewrite Nat.mod_1_r. reflexivity.
Qed.

(** ** iterate_pagerank: a sweep brings two dictionaries closer *)

Section contraction.
Variables (c : corpus) (N d : Q).
Hypothesis HN : 0 < N.
Hypothesis Hd0 : 0 <= d.

Lemma inv_Qnat_nonneg n : 0 <= 1 / Qnat n.
Proof.
  unfold Qdiv. rewrite Qmult_1_l. apply Qinv_le_0_compat, Qnat_nonneg.
Qed.

Lemma weight_nonneg p links : 0 <= weight N p links.
Proof using HN.
  unfold weight.
  assert (0 <= 1 / N).
  { unfold Qdiv. rewrite Qmult_1_l. apply Qinv_le_0_compat. lra. }
  pose proof (inv_Qnat_nonneg (size links)).
  repeat case_decide; lra.
Qed.

Lemma mass_nonneg ps links : 0 <= mass N ps links.
Proof using HN. apply Qsum_nonneg. intros p _. apply weight_nonneg. Qed.

Lemma mass_cons p ps links : mass N (p :: ps) links = weight N p links + mass N ps links.
Proof using Type. reflexivity. Qed.

Lemma mass_after_bounds ps q links :
  0 <= mass_after N ps q links <= mass N ps links.
Proof using HN.
  induction ps as [|p ps IH]; cbn [mass_after].
  { change (mass N [] links) with 0. split; lra. }
  rewrite mass_cons. pose proof (weight_nonneg p links).
  pose proof (mass_nonneg ps links). destruct IH.
  case_decide; split; lra.
Qed.

Lemma mass_after_absent ps q links : q ∉ ps → mass_after N ps q links = 0.
Proof using Type.
  induction ps as [|p ps IH]; simpl; [done|].
  intros [Hne Hq]%not_elem_of_cons. rewrite decide_False by done. auto.
Qed.

Lemma inflow_term_weight pr p e :
  inflow_term N pr p e == weight N p e.2 * at_ pr e.1.
Proof using Type.
  unfold inflow_term, weight. repeat case_decide; unfold Qdiv; ring.
Qed.

Lemma Qabs_Qsum {A} (f : A → Q) (l : list A) :
  Qabs (Qsum (map f l)) <= Qsum (map (fun a => Qabs (f a)) l).
Proof using Type.
  induction l as [|a l IH]; cbn [map Qsum]; [by vm_compute|].
  pose proof (Qabs_triangle (f a) (Qsum (map f l))). lra.
Qed.

(** One update: the gap at the updated page is at most [d] times the
    gaps before the update, each taken with its share. *)
Lemma update_gap a b p :
  gap (update_page c N d a p) (update_page c N d b p) p
  <= d * Qsum (map (fun e => weight N p e.2 * gap a b e.1) c).
Proof using HN Hd0.
  unfold gap, update_page. rewrite !at_set_eq.
  assert (Heq : 1 - d + d * inflow c N a p - (1 - d + d * inflow c N b p)
                == d * Qsum (map (fun e => weight N p e.2 * (at_ a e.1 - at_ b e.1)) c)).
  { rewrite !inflow_sum.
    rewrite (Qsum_ext (inflow_term N a p) (fun e => weight N p e.2 * at_ a e.1))
      by (intros; apply inflow_term_weight).
    rewrite (Qsum_ext (inflow_term N b p) (fun e => weight N p e.2 * at_ b e.1))
      by (intros; apply inflow_term_weight).
    rewrite (Qsum_ext (fun e => weight N p e.2 * (at_ a e.1 - at_ b e.1))
               (fun e => weight N p e.2 * at_ a e.1 + (-(1)) * (weight N p e.2 * at_ b e.1)))
      by (intros; ring).
    rewrite Qsum_plus, Qsum_scale. ring. }
  rewrite Heq, Qabs_Qmult, (Qabs_pos d) by done.
  rewrite !(Qmult_comm d). apply Qmult_le_compat_r; [|done].
  eapply Qle_trans; [apply Qabs_Qsum|].
  apply Qsum_le. intros e _. rewrite Qabs_Qmult.
  rewrite (Qabs_pos (weight N p e.2)) by apply weight_nonneg. lra.
Qed.

Lemma gap_update_other a b p q :
  p ≠ q → gap (update_page c N d a p) (update_page c N d b p) q = gap a b q.
Proof using Type.
  intros Hne. unfold gap, update_page. by rewrite !at_set_ne.
Qed.

Lemma gap_fold_other ps a b q :
  q ∉ ps →
  gap (fold_left (update_page c N d) ps a) (fold_left (update_page c N d) ps b) q
  = gap a b q.
Proof using Type.
  intros Hq. unfold gap. by rewrite !at_fold_update_other.
Qed.

(** A run of updates over the pages [ps]: the gaps at these pages after
    the run are bounded by [d] times the gaps each update has read, new
    ones for the pages updated before it in the run, old ones for the
    others. *)
Lemma fold_update_gap ps a b :
  NoDup ps →
  Qsum (map (gap (fold_left (update_page c N d) ps a)
                 (fold_left (update_page c N d) ps b)) ps)
  <= d * Qsum (map (fun e =>
                      mass_after N ps e.1 e.2
                      * gap (fold_left (update_page c N d) ps a)
                            (fold_left (update_page c N d) ps b) e.1
                      + (mass N ps e.2 - mass_after N ps e.1 e.2) * gap a b e.1) c).
Proof using HN Hd0.
  revert a b. induction ps as [|p ps IH]; intros a b Hnd.
  - cbn [map Qsum fold_left mass_after]. change (mass N [] ?l) with 0.
    rewrite (Qsum_ext _ (fun _ => 0)) by (intros; ring).
    rewrite Qsum_const. lra.
  - apply NoDup_cons in Hnd as [Hp Hnd].
    cbn [fold_left map Qsum].
    set (a1 := update_page c N d a p). set (b1 := update_page c N d b p).
    set (a' := fold_left (update_page c N d) ps a1).
    set (b' := fold_left (update_page c N d) ps b1).
    specialize (IH a1 b1 Hnd). fold a' b' in IH.
    assert (Hgp : gap a' b' p = gap a1 b1 p) by (by apply gap_fold_other).
    pose proof (update_gap a b p) as Hup. fold a1 b1 in Hup.
    assert (Hsum :
      Qsum (map (fun e => mass_after N (p :: ps) e.1 e.2 * gap a' b' e.1
                          + (mass N (p :: ps) e.2 - mass_after N (p :: ps) e.1 e.2)
                            * gap a b e.1) c)
      == Qsum (map (fun e => weight N p e.2 * gap a b e.1) c)
         + Qsum (map (fun e => mass_after N ps e.1 e.2 * gap a' b' e.1
                               + (mass N ps e.2 - mass_after N ps e.1 e.2)
                                 * gap a1 b1 e.1) c)).
    { rewrite <-Qsum_plus. apply Qsum_ext. intros e _.
      cbn [mass_after]. rewrite mass_cons.
      destruct (decide (p = e.1)) as [Heq|Hne].
      - rewrite <-Heq. rewrite (mass_after_absent ps p) by done.
        rewrite <-Hgp. ring.
      - unfold a1, b1. rewrite gap_update_other by done. ring. }
    rewrite Hsum, Hgp. lra.
Qed.

End contraction.

(** A page hands out its whole rank over the corpus: to every page when
    it is dangling, to the pages it links to otherwise. *)
Lemma mass_column c e :
  valid_corpus c → e ∈ c → mass (Qnat (length c)) (Dict.keys c) e.2 == 1.
Proof.
  intros Hv He. pose proof Hv as (Hne & Hnd & Hall).
  pose proof (Qnat_pos _ (length_pos_of_valid _ Hv)) as HN.
  rewrite Forall_forall in Hall. specialize (Hall e He).
  unfold mass, weight. destruct (decide (e.2 = ∅)) as [Hempty|Hlinks].
  - rewrite (Qsum_ext _ (fun _ => 1 / Qnat (length c))).
    + rewrite Qsum_const. unfold Dict.keys. rewrite length_map. field. lra.
    + intros p _. rewrite decide_False; [ring|]. rewrite Hempty. apply not_elem_of_empty.
  - rewrite (Qsum_ext _ (fun p => if decide (p ∈ e.2) then 1 / Qnat (size e.2) else 0)).
    + by apply Qsum_links.
    + intros p _. ring.
Qed.

Lemma gap_nonneg a b q : 0 <= gap a b q.
Proof. apply Qabs_nonneg. Qed.

Lemma Qsum_elem_le {A} (f : A → Q) (l : list A) (a : A) :
  (∀ x, x ∈ l → 0 <= f x) → a ∈ l → f a <= Qsum (map f l).
Proof.
  induction l as [|x l IH]; [by intros _ ?%elem_of_nil|].
  intros Hf Ha. cbn [map Qsum].
  assert (0 <= f x) by (apply Hf; left).
  assert (0 <= Qsum (map f l)).
  { apply Qsum_nonneg. intros ??. apply Hf. by right. }
  apply elem_of_cons in Ha as [->|Ha]; [lra|].
  assert (f a <= Qsum (map f l)); [|lra].
  apply IH; [|done]. intros ??. apply Hf. by right.
Qed.

Section rounds.
Variables (c : corpus) (d : Q).
Hypothesis Hv : valid_corpus c.
Hypothesis Hd : 0 <= d <= 1.
Let N := Qnat (length c).

Lemma N_pos : 0 < N.
Proof using Hv. apply Qnat_pos, length_pos_of_valid, Hv. Qed.

Lemma mass_after_unit e : e ∈ c → 0 <= mass_after N (Dict.keys c) e.1 e.2 <= 1.
Proof using Hv.
  intros He. pose proof (mass_after_bounds N N_pos (Dict.keys c) e.1 e.2) as [H0 H1].
  pose proof (mass_column c e Hv He) as Hm. fold N in Hm. split; lra.
Qed.

Lemma weighted_gap_nonneg a b : 0 <= weighted_gap c N d a b.
Proof using Hv Hd.
  apply Qsum_nonneg. intros e He.
  pose proof (mass_after_unit e He) as [H0 H1]. pose proof (gap_nonneg a b e.1).
  apply Qmult_le_0_compat; [nra|done].
Qed.

(** A sweep brings two dictionaries closer by the factor [d], in the
    weighted sum of gaps. *)
Lemma sweep_contracts a b :
  weighted_gap c N d (sweep c N d a) (sweep c N d b) <= d * weighted_gap c N d a b.
Proof using Hv Hd.
  pose proof Hv as (_ & Hnd & _). destruct Hd as [Hd0 Hd1].
  pose proof (fold_update_gap c N d N_pos Hd0 (Dict.keys c) a b Hnd) as Hfold.
  fold (sweep c N d a) (sweep c N d b) in Hfold.
  set (a' := sweep c N d a) in *. set (b' := sweep c N d b) in *.
  set (A' := Qsum (map (fun e => gap a' b' e.1) c)).
  set (L' := Qsum (map (fun e => mass_after N (Dict.keys c) e.1 e.2 * gap a' b' e.1) c)).
  set (A := Qsum (map (fun e => gap a b e.1) c)).
  set (L := Qsum (map (fun e => mass_after N (Dict.keys c) e.1 e.2 * gap a b e.1) c)).
  assert (HA' : Qsum (map (gap a' b') (Dict.keys c)) = A').
  { unfold A', Dict.keys. by rewrite map_map. }
  assert (Hrhs :
    Qsum (map (fun e => mass_after N (Dict.keys c) e.1 e.2 * gap a' b' e.1
                        + (mass N (Dict.keys c) e.2 - mass_after N (Dict.keys c) e.1 e.2) * gap a b e.1) c)
    == L' + A - L).
  { rewrite (Qsum_ext _ (fun e => mass_after N (Dict.keys c) e.1 e.2 * gap a' b' e.1
                                  + (gap a b e.1 + (-(1)) * (mass_after N (Dict.keys c) e.1 e.2 * gap a b e.1)))).
    - rewrite Qsum_plus. rewrite (Qsum_plus (fun e => gap a b e.1)).
      rewrite Qsum_scale. unfold L', A, L. ring.
    - intros e He. pose proof (mass_column c e Hv He) as Hm. fold N in Hm.
      rewrite Hm. ring. }
  assert (HW' : weighted_gap c N d a' b' == A' - d * L').
  { unfold weighted_gap.
    rewrite (Qsum_ext _ (fun e => gap a' b' e.1 + (-d) * (mass_after N (Dict.keys c) e.1 e.2 * gap a' b' e.1)))
      by (intros; ring).
    rewrite Qsum_plus, Qsum_scale. unfold A', L'. ring. }
  assert (HW : weighted_gap c N d a b == A - d * L).
  { unfold weighted_gap.
    rewrite (Qsum_ext _ (fun e => gap a b e.1 + (-d) * (mass_after N (Dict.keys c) e.1 e.2 * gap a b e.1)))
      by (intros; ring).
    rewrite Qsum_plus, Qsum_scale. unfold A, L. ring. }
  assert (HL : 0 <= L).
  { apply Qsum_nonneg. intros e He. pose proof (mass_after_unit e He) as [H0 _].
    apply Qmult_le_0_compat; [done|apply gap_nonneg]. }
  rewrite HA', Hrhs in Hfold. rewrite HW', HW.
  assert (0 <= d * L * (1 - d)).
  { apply Qmult_le_0_compat; [apply Qmult_le_0_compat; done|lra]. }
  nra.
Qed.

(** The gap at any one page is bounded by the weighted sum. *)
Lemma gap_le_weighted a b q :
  q ∈ Dict.keys c → (1 - d) * gap a b q <= weighted_gap c N d a b.
Proof using Hv Hd.
  intros [e [-> He]]%list_elem_of_fmap.
  pose proof (mass_after_unit e He) as [H0 H1]. pose proof (gap_nonneg a b e.1).
  eapply Qle_trans;
    [|apply (Qsum_elem_le
               (fun e => (1 - d * mass_after N (Dict.keys c) e.1 e.2) * gap a b e.1)
               c e)].
  - destruct Hd as [Hd0 Hd1].
    assert (0 <= d * (1 - mass_after N (Dict.keys c) e.1 e.2) * gap a b e.1).
    { apply Qmult_le_0_compat; [apply Qmult_le_0_compat|]; lra. }
    lra.
  - intros e' He'. pose proof (mass_after_unit e' He') as [? ?].
    pose proof (gap_nonneg a b e'.1). apply Qmult_le_0_compat; [nra|done].
  - done.
Qed.

End rounds.

(** ** iterate_pagerank: the loop stops *)

(** A non-negative sequence that shrinks by a factor below 1 at every
    step falls below any positive bound. *)
Lemma geometric_small (W : nat → Q) (r η : Q) :
  0 <= r < 1 → 0 < η → (∀ k, 0 <= W k) → (∀ k, W (S k) <= r * W k) →
  ∃ k, W k < η.
Proof.
  intros [Hr0 Hr1] Hη Hpos Hstep.
  set (t := (1 - r) * η).
  assert (Ht : 0 < t) by (apply Qmult_lt_0_compat; lra).
  assert (Hlin : ∀ K, (∃ k, W k < η) ∨ W K <= W 0%nat - Qnat K * t).
  { induction K as [|K [IH|IH]].
    - right. change (Qnat 0) with 0. lra.
    - by left.
    - destruct (Qlt_le_dec (W K) η) as [Hlt|Hge]; [left; eauto|].
      right. rewrite Qnat_S. specialize (Hstep K).
      assert (0 <= (1 - r) * (W K - η)) by (apply Qmult_le_0_compat; lra).
      unfold t in *. lra. }
  destruct (Qarchimedean (W 0%nat / t)) as [P HP].
  assert (HPt : W 0%nat < (Z.pos P # 1) * t).
  { apply (Qmult_lt_compat_r _ _ t) in HP; [|done].
    assert (Heq : W 0%nat / t * t == W 0%nat) by (field; lra).
    by rewrite Heq in HP. }
  destruct (Hlin (Pos.to_nat P)) as [?|Hle]; [done|].
  exfalso. specialize (Hpos (Pos.to_nat P)).
  assert (HQ : Qnat (Pos.to_nat P) = Z.pos P # 1).
  { unfold Qnat. by rewrite positive_nat_Z. }
  rewrite HQ in Hle. lra.
Qed.

(** The test of a round succeeds exactly when every page's gap between
    the two dictionaries is below the threshold. *)
Lemma stops_iff_small_gaps prev x :
  NoDup (Dict.keys x) → x ≠ [] →
  (∃ diff, py_max (changes prev x) = Returns diff ∧ diff < threshold)
  ↔ ∀ q, q ∈ Dict.keys x → gap prev x q < threshold.
Proof.
  intros Hnd Hne.
  destruct (py_max_nonempty _ (changes_nonempty prev _ Hne)) as [diff Hdiff].
  destruct (max_change_spec prev x diff Hnd Hdiff) as [(q0 & Hq0 & Hd0) Hall].
  rewrite Hdiff. unfold gap. split.
  - intros (? & [= <-] & Hlt) q Hq. specialize (Hall q Hq). lra.
  - intros Hsmall. exists diff. split; [done|]. rewrite Hd0. by apply Hsmall.
Qed.

(** Once the test of some round succeeds, the loop has returned by then. *)
Lemma iterate_loop_stops fuel j c N d pr prev :
  pr ≠ [] → (1 ≤ j ≤ fuel)%nat → stops_in_round c N d pr prev j →
  ∃ v, iterate_loop fuel c N d pr prev = Some (Returns v).
Proof.
  revert j pr prev. induction fuel as [|fuel IH]; intros j pr prev Hne Hj Hstop; [lia|].
  simpl iterate_loop.
  pose proof (sweep_nonempty c N d pr Hne) as Hs.
  destruct (py_max_nonempty _ (changes_nonempty prev _ Hs)) as [diff Hdiff].
  rewrite Hdiff. destruct (Qlt_le_dec diff threshold) as [Hlt|Hge]; [eauto|].
  destruct j as [|[|j]]; [lia| |].
  - exfalso. destruct Hstop as (diff' & Hmax & Hlt). simpl in Hmax.
    rewrite Hdiff in Hmax. injection Hmax as <-. lra.
  - apply (IH (S j)); [done|lia|].
    apply (stops_in_round_shift _ _ _ _ prev); [lia|done].
Qed.

Lemma keys_round_vector c N d k :
  Dict.keys (round_vector c N d (initial_ranks c) k) = Dict.keys c.
Proof.
  unfold round_vector. induction k as [|k IH]; simpl.
  - apply keys_initial_ranks.
  - by apply keys_sweep.
Qed.



(** * Beyond the claims *)

(** ** crawl *)

Lemma endswith_refl s : endswith s s = true.
Proof. destruct s; cbn [endswith]; by rewrite String.eqb_refl. Qed.

(** [endswith] is the suffix relation. *)
Lemma endswith_spec s suffix :
  endswith s suffix = true ↔ ∃ pre, s = (pre ++ suffix)%string.
Proof.
  induction s as [|a s IH]; cbn [endswith].
  - destruct (String.eqb "" suffix) eqn:Heq.
    + apply String.eqb_eq in Heq as <-. split; [by exists ""%string|done].
    + split; [done|]. intros [pre Hpre]. apply String.eqb_neq in Heq.
      destruct pre; simpl in Hpre; [done|discriminate].
  - destruct (String.eqb (String a s) suffix) eqn:Heq.
    + apply String.eqb_eq in Heq as <-. split; [by exists ""%string|done].
    + apply String.eqb_neq in Heq. rewrite IH. split.
      * intros [pre ->]. by exists (String a pre).
      * intros [[|b pre] Hpre]; simpl in Hpre; [done|].
        injection Hpre as -> ->. by exists pre.
Qed.

Lemma NoDup_keys_set {V} (d : dict V) k v :
  NoDup (Dict.keys d) → NoDup (Dict.keys (Dict.set d k v)).
Proof.
  induction d as [|[k0 v0] d IH]; simpl.
  - intros _. apply NoDup_singleton.
  - intros [Hk0 Hnd]%NoDup_cons. destruct (decide (k0 = k)) as [->|Hne]; simpl.
    + by apply NoDup_cons.
    + apply NoDup_cons. split; [|by apply IH].
      intros Hin. apply get_is_Some in Hin.
      rewrite get_set_ne in Hin by done. by apply get_is_Some in Hin.
Qed.

Lemma keys_set_new {V} (d : dict V) k v :
  k ∉ Dict.keys d → Dict.keys (Dict.set d k v) = Dict.keys d ++ [k].
Proof.
  induction d as [|[k0 v0] d IH]; simpl; [done|].
  intros [Hne Hk]%not_elem_of_cons. rewrite decide_False by done. simpl.
  by rewrite IH.
Qed.

Lemma elem_of_keys_set {V} (d : dict V) k v k' :
  k' ∈ Dict.keys (Dict.set d k v) ↔ k' = k ∨ k' ∈ Dict.keys d.
Proof.
  rewrite !get_is_Some. destruct (decide (k = k')) as [->|Hne].
  - rewrite get_set_eq. split; [by left|]. intros _. by eexists.
  - rewrite get_set_ne by done. split; [by right|]. by intros [->|?].
Qed.

Section crawl_facts.
Variable findall : string → list string.

Local Abbreviation step := (crawl_extract_step findall).
Local Abbreviation html := (fun name : string => endswith name ".html" = true).

Lemma extract_NoDup (dir : directory) (acc : corpus) :
  NoDup (Dict.keys acc) → NoDup (Dict.keys (fold_left step dir acc)).
Proof using Type.
  revert acc. induction dir as [|[name text] dir IH]; intros acc Hnd; simpl; [done|].
  apply IH. destruct (endswith name ".html"); [by apply NoDup_keys_set|done].
Qed.

Lemma extract_elem_of_keys (dir : directory) (acc : corpus) k :
  k ∈ Dict.keys (fold_left step dir acc)
  ↔ k ∈ Dict.keys acc ∨ (k ∈ map fst dir ∧ html k).
Proof using Type.
  revert acc. induction dir as [|[name text] dir IH]; intros acc; simpl.
  - split; [by left|]. intros [?|[?%elem_of_nil _]]; done.
  - rewrite IH, elem_of_cons. destruct (endswith name ".html") eqn:Hname.
    + rewrite elem_of_keys_set. split.
      * intros [[->|?]|[? ?]]; [right|left|right]; auto.
      * intros [?|[[->|?] ?]]; [left; by right|left; by left|right; auto].
    + split.
      * intros [?|[? ?]]; [left|right]; auto.
      * intros [?|[[->|?] ?]]; [by left|congruence|right; auto].
Qed.

Lemma extract_get_other (dir : directory) (acc : corpus) k :
  k ∉ map fst dir → Dict.get (fold_left step dir acc) k = Dict.get acc k.
Proof using Type.
  revert acc. induction dir as [|[name text] dir IH]; intros acc Hk; simpl; [done|].
  simpl in Hk. apply not_elem_of_cons in Hk as [Hne Hk]. rewrite IH by done.
  destruct (endswith name ".html"); [|done]. by rewrite get_set_ne.
Qed.

Lemma extract_get (dir : directory) (acc : corpus) k text :
  NoDup (map fst dir) → (k, text) ∈ dir → html k →
  Dict.get (fold_left step dir acc) k = Some (list_to_set (findall text) ∖ {[k]}).
Proof using Type.
  revert acc. induction dir as [|[name text'] dir IH]; intros acc Hnd Hin Hk.
  - by apply elem_of_nil in Hin.
  - simpl in Hnd. apply NoDup_cons in Hnd as [Hname Hnd]. simpl.
    apply elem_of_cons in Hin as [[= <- <-]|Hin].
    + rewrite extract_get_other by done. rewrite Hk. by rewrite get_set_eq.
    + by apply IH.
Qed.

Lemma extract_keys_order (dir : directory) (acc : corpus) :
  NoDup (map fst dir) → (∀ k, k ∈ map fst dir → k ∉ Dict.keys acc) →
  Dict.keys (fold_left step dir acc) = Dict.keys acc ++ filter html (map fst dir).
Proof using Type.
  revert acc. induction dir as [|[name text] dir IH]; intros acc Hnd Hfresh; simpl.
  - by rewrite app_nil_r.
  - simpl in Hnd. apply NoDup_cons in Hnd as [Hname Hnd].
    rewrite filter_cons. simpl.
    destruct (endswith name ".html") eqn:Hhtml.
    + rewrite decide_True by done. rewrite IH; [|done|].
      * rewrite keys_set_new by (apply Hfresh; left). by rewrite <-app_assoc.
      * intros k Hk [->|Hacc]%elem_of_keys_set; [done|].
        by apply (Hfresh k); [right|].
    + rewrite decide_False by done. apply IH; [done|].
      intros k Hk. apply Hfresh. by right.
Qed.

Lemma extract_no_self (dir : directory) (acc : corpus) :
  (∀ k links, Dict.get acc k = Some links → k ∉ links) →
  ∀ k links, Dict.get (fold_left step dir acc) k = Some links → k ∉ links.
Proof using Type.
  revert acc. induction dir as [|[name text] dir IH]; intros acc Hacc; simpl; [done|].
  apply IH. destruct (endswith name ".html"); [|done].
  intros k links. destruct (decide (name = k)) as [->|Hne].
  - rewrite get_set_eq. intros [= <-]. rewrite elem_of_difference, elem_of_singleton. by intros [_ ?].
  - rewrite get_set_ne by done. apply Hacc.
Qed.

Lemma restrict_fold (ks : list string) (pages : corpus) :
  NoDup ks → ks ⊆ Dict.keys pages →
  Dict.keys (fold_left crawl_restrict_step ks pages) = Dict.keys pages
  ∧ ∀ k, Dict.get (fold_left crawl_restrict_step ks pages) k
         = if decide (k ∈ ks)
           then Some (filter (fun link => link ∈ Dict.keys pages)
                        (default ∅ (Dict.get pages k)))
           else Dict.get pages k.
Proof using Type.
  revert pages. induction ks as [|k0 ks IH]; intros pages Hnd Hsub.
  - simpl. by split.
  - apply NoDup_cons in Hnd as [Hk0 Hnd].
    assert (Hk0p : k0 ∈ Dict.keys pages) by (apply Hsub; left).
    assert (Hkeys1 : Dict.keys (crawl_restrict_step pages k0) = Dict.keys pages)
      by (by apply keys_set).
    destruct (IH (crawl_restrict_step pages k0) Hnd) as [Hkeys Hget].
    { rewrite Hkeys1. intros k Hk. apply Hsub. by right. }
    cbn [fold_left]. split; [by rewrite Hkeys|].
    intros k. rewrite Hget, Hkeys1.
    destruct (decide (k0 = k)) as [->|Hne].
    + rewrite (decide_False (P := k ∈ ks)) by done.
      rewrite (decide_True (P := k ∈ k :: ks)) by left.
      unfold crawl_restrict_step. by rewrite get_set_eq.
    + unfold crawl_restrict_step at 1 2. rewrite get_set_ne by done.
      destruct (decide (k ∈ ks)) as [Hin|Hnin].
      * rewrite (decide_True (P := k ∈ k0 :: ks)) by (by right). done.
      * rewrite (decide_False (P := k ∈ k0 :: ks)); [done|].
        by intros [?|?]%elem_of_cons.
Qed.

(** The second loop keeps the keys and, under every key, the links that
    are keys. *)
Lemma restrict_spec (pages : corpus) :
  NoDup (Dict.keys pages) →
  Dict.keys (crawl_restrict pages) = Dict.keys pages
  ∧ ∀ k, Dict.get (crawl_restrict pages) k
         = filter (fun link => link ∈ Dict.keys pages) <$> Dict.get pages k.
Proof using Type.
  intros Hnd. destruct (restrict_fold (Dict.keys pages) pages Hnd) as [Hkeys Hget];
    [done|].
  split; [done|]. intros k. unfold crawl_restrict. rewrite Hget.
  destruct (decide (k ∈ Dict.keys pages)) as [Hin|Hnin].
  - apply get_is_Some in Hin as [links ->]. done.
  - apply get_None in Hnin. by rewrite Hnin.
Qed.

End crawl_facts.

Lemma crawl_keys findall (dir : directory) :
  Dict.keys (crawl findall dir) = Dict.keys (crawl_extract findall dir).
Proof.
  unfold crawl. apply restrict_spec. apply extract_NoDup. constructor.
Qed.

Lemma crawl_get findall (dir : directory) k :
  Dict.get (crawl findall dir) k
  = filter (fun link => link ∈ Dict.keys (crawl findall dir))
      <$> Dict.get (crawl_extract findall dir) k.
Proof.
  rewrite crawl_keys. unfold crawl. apply restrict_spec.
  apply extract_NoDup. constructor.
Qed.

Lemma crawl_NoDup findall (dir : directory) : NoDup (Dict.keys (crawl findall dir)).
Proof. rewrite crawl_keys. apply extract_NoDup. constructor. Qed.

Lemma crawl_elem_of_keys findall (dir : directory) k :
  k ∈ Dict.keys (crawl findall dir)
  ↔ k ∈ map fst dir ∧ endswith k ".html" = true.
Proof.
  rewrite crawl_keys. unfold crawl_extract. rewrite extract_elem_of_keys.
  split; [intros [?%elem_of_nil|?]; done | by right].
Qed.

Lemma crawl_entry (findall : string → list string) (dir : directory) e :
  e ∈ crawl findall dir →
  ∃ links0, Dict.get (crawl_extract findall dir) e.1 = Some links0
    ∧ e.2 = filter (fun link => link ∈ Dict.keys (crawl findall dir)) links0.
Proof.
  destruct e as [k links]. intros He.
  apply (elem_of_get _ _ _ (crawl_NoDup findall dir)) in He.
  rewrite crawl_get in He. simpl.
  destruct (Dict.get (crawl_extract findall dir) k) as [links0|]; [|done].
  injection He as <-. by exists links0.
Qed.

(** Every link of the graph is a page of the graph. *)
Lemma crawl_links_inside (findall : string → list string) (dir : directory) :
  Forall (fun e => e.2 ⊆ list_to_set (Dict.keys (crawl findall dir)))
    (crawl findall dir).
Proof.
  apply Forall_forall. intros e He.
  destruct (crawl_entry findall dir e He) as (links0 & _ & ->).
  intros link [Hlink _]%elem_of_filter. by apply elem_of_list_to_set.
Qed.

Lemma crawl_nonempty (findall : string → list string) (dir : directory) :
  (∃ entry, entry ∈ dir ∧ endswith entry.1 ".html" = true) →
  crawl findall dir ≠ [].
Proof.
  intros (entry & Hin & Hhtml) Hempty.
  assert (Hkey : entry.1 ∈ Dict.keys (crawl findall dir)).
  { apply crawl_elem_of_keys. split; [|done]. apply list_elem_of_fmap. by exists entry. }
  rewrite Hempty in Hkey. by apply elem_of_nil in Hkey.
Qed.

Lemma crawl_nil (findall : string → list string) (dir : directory) :
  (∀ entry, entry ∈ dir → endswith entry.1 ".html" = false) →
  crawl findall dir = [].
Proof.
  intros Hnone. destruct (crawl findall dir) as [|[k links] pages] eqn:Hc; [done|].
  assert (Hkey : k ∈ Dict.keys (crawl findall dir)) by (rewrite Hc; left).
  apply crawl_elem_of_keys in Hkey as [Hin Hhtml].
  apply list_elem_of_fmap in Hin as (entry & -> & Hin).
  rewrite (Hnone entry Hin) in Hhtml. done.
Qed.

(** X1: whenever the directory has an entry whose name ends with
    [.html], [crawl] returns a link graph the estimators accept: it is
    not empty, no page occurs twice, every link is a page of the graph,
    and no page links to itself. *)
Theorem crawl_valid_link_graph (findall : string → list string) (dir : directory) :
  (∃ entry, entry ∈ dir ∧ endswith entry.1 ".html" = true) →
  valid_corpus (crawl findall dir)
  ∧ Forall (fun e => e.1 ∉ e.2) (crawl findall dir).
Proof.
  intros Hhtml. split; [split; [|split]|].
  - by apply crawl_nonempty.
  - apply crawl_NoDup.
  - apply crawl_links_inside.
  - apply Forall_forall. intros e He.
    destruct (crawl_entry findall dir e He) as (links0 & Hget & ->).
    intros [_ Hself]%elem_of_filter. revert Hself.
    assert (Hnil : ∀ k links, Dict.get ([] : corpus) k = Some links → k ∉ links)
      by done.
    by apply (extract_no_self findall dir [] Hnil e.1).
Qed.

Lemma crawl_valid_link_graph_witness :
  (∃ entry, entry ∈ dir_example ∧ endswith entry.1 ".html" = true)
  ∧ valid_corpus (crawl findall_whole dir_example)
  ∧ Forall (fun e => e.1 ∉ e.2) (crawl findall_whole dir_example).
Proof.
  assert (H : ∃ entry, entry ∈ dir_example ∧ endswith entry.1 ".html" = true).
  { exists ("a.html", "b.html")%string. split; [left|reflexivity]. }
  split; [exact H|]. exact (crawl_valid_link_graph findall_whole dir_example H).
Defined.

(** X2: the pages of the graph are the entries of the directory whose
    name ends with [.html], in the order of the directory (names in a
    directory are distinct). *)
Theorem crawl_pages (findall : string → list string) (dir : directory) :
  NoDup (map fst dir) →
  Dict.keys (crawl findall dir)
  = filter (fun name => endswith name ".html" = true) (map fst dir).
Proof.
  intros Hnd. rewrite crawl_keys. unfold crawl_extract.
  rewrite (extract_keys_order findall dir [] Hnd); [done|].
  by intros k _ ?%elem_of_nil.
Qed.

Lemma crawl_pages_witness :
  NoDup (map fst dir_example)
  ∧ Dict.keys (crawl findall_whole dir_example)
    = filter (fun name => endswith name ".html" = true) (map fst dir_example).
Proof.
  assert (Hnd : NoDup (map fst dir_example))
    by (apply (bool_decide_unpack _); vm_compute; exact I).
  split; [exact Hnd|]. exact (crawl_pages findall_whole dir_example Hnd).
Defined.

(** X3: the links of a page are the [href] values found in its text that
    differ from the page's own name and name an [.html] entry of the
    directory. *)
Theorem crawl_links (findall : string → list string) (dir : directory)
    (name text : string) :
  NoDup (map fst dir) → (name, text) ∈ dir → endswith name ".html" = true →
  ∃ links,
    Dict.get (crawl findall dir) name = Some links
    ∧ ∀ link, link ∈ links
              ↔ link ∈ findall text ∧ link ≠ name
                ∧ link ∈ map fst dir ∧ endswith link ".html" = true.
Proof.
  intros Hnd Hin Hhtml. rewrite crawl_get. unfold crawl_extract.
  rewrite (extract_get findall dir [] name text Hnd Hin Hhtml). simpl.
  eexists. split; [done|]. intros link.
  rewrite elem_of_filter, crawl_elem_of_keys, elem_of_difference,
    elem_of_list_to_set, elem_of_singleton.
  split.
  - by intros [[? ?] [? ?]].
  - by intros (? & ? & ? & ?).
Qed.

Lemma crawl_links_witness :
  NoDup (map fst dir_example)
  ∧ ("a.html", "b.html")%string ∈ dir_example
  ∧ endswith "a.html" ".html" = true
  ∧ ∃ links,
      Dict.get (crawl findall_whole dir_example) "a.html" = Some links
      ∧ ∀ link, link ∈ links
                ↔ link ∈ findall_whole "b.html" ∧ link ≠ "a.html"%string
                  ∧ link ∈ map fst dir_example ∧ endswith link ".html" = true.
Proof.
  assert (Hnd : NoDup (map fst dir_example))
    by (apply (bool_decide_unpack _); vm_compute; exact I).
  assert (Hin : ("a.html", "b.html")%string ∈ dir_example) by left.
  split; [exact Hnd|]. split; [exact Hin|]. split; [reflexivity|].
  exact (crawl_links findall_whole dir_example "a.html" "b.html" Hnd Hin eq_refl).
Defined.

Lemma extract_filter findall (dir : directory) (acc : corpus) :
  fold_left (crawl_extract_step findall)
    (filter (fun e => endswith e.1 ".html" = true) dir) acc
  = fold_left (crawl_extract_step findall) dir acc.
Proof.
  revert acc. induction dir as [|[name text] dir IH]; intros acc; [done|].
  rewrite filter_cons. simpl. destruct (endswith name ".html") eqn:Hhtml.
  - rewrite decide_True by done. simpl. rewrite Hhtml. apply IH.
  - rewrite decide_False by done. apply IH.
Qed.

(** X4: entries whose name does not end with [.html] have no influence
    on the graph, whatever their text is. *)
Theorem crawl_ignores_other_files (findall : string → list string) (dir : directory) :
  crawl findall (filter (fun e => endswith e.1 ".html" = true) dir)
  = crawl findall dir.
Proof. unfold crawl, crawl_extract. by rewrite extract_filter. Qed.

(** X5: [crawl] returns the empty graph exactly when no entry of the
    directory has a name ending with [.html]. *)
Theorem crawl_empty_iff (findall : string → list string) (dir : directory) :
  crawl findall dir = []
  ↔ ∀ entry, entry ∈ dir → endswith entry.1 ".html" = false.
Proof.
  split; [|apply crawl_nil].
  intros Hempty entry Hin. destruct (endswith entry.1 ".html") eqn:Hhtml; [|done].
  exfalso. apply (crawl_nonempty findall dir); [|done]. by exists entry.
Qed.

(** ** transition_model, beyond the claims *)

(** X6: for a page that is not a key of a non-empty graph,
    [transition_model] stops with [KeyError] (raised by [corpus[page]]
    in the first loop). *)
Theorem transition_model_missing_page (c : corpus) (page : page) (d : Q) :
  c ≠ [] → page ∉ Dict.keys c → transition_model c page d = Raises KeyError.
Proof.
  intros Hne Hpage%get_None. unfold transition_model, damping_rows.
  destruct c as [|[k links] c]; [done|].
  change (Dict.keys ((k, links) :: c)) with (k :: Dict.keys c).
  cbn [for_each]. unfold Dict.subscript. by rewrite Hpage.
Qed.

Lemma transition_model_missing_page_witness :
  corpus_abc ≠ [] ∧ ("Z"%string ∉ Dict.keys corpus_abc)
  ∧ transition_model corpus_abc "Z" (85 # 100) = Raises KeyError.
Proof.
  assert (Hne : corpus_abc ≠ []) by discriminate.
  assert (Hz : "Z"%string ∉ Dict.keys corpus_abc)
    by (apply (bool_decide_unpack _); vm_compute; exact I).
  split; [exact Hne|]. split; [exact Hz|].
  exact (transition_model_missing_page corpus_abc "Z" (85 # 100) Hne Hz).
Defined.

(** X7: for a page that has at least one link, in a valid graph with
    damping in [0,1], [transition_model] returns a probability
    distribution over the pages: every value lies between 0 and 1 and
    the values add up to 1. *)
Theorem transition_model_distribution (c : corpus) (page : page)
    (links : gset string) (d : Q) :
  valid_corpus c → Dict.get c page = Some links → links ≠ ∅ → 0 <= d <= 1 →
  ∃ t, transition_model c page d = Returns t
       ∧ (∀ p, p ∈ Dict.keys c → 0 <= at_ t p <= 1)
       ∧ Qsum (Dict.values t) == 1.
Proof.
  intros Hv Hget Hlinks [Hd0 Hd1]. pose proof Hv as (_ & Hnd & _).
  destruct (transition_model_total c page links d Hv Hget) as (t & Ht & Hsum).
  exists t. split; [done|]. split; [|by rewrite Hsum, decide_False].
  rewrite (transition_model_eq _ _ _ _ Hnd Hget) in Ht. injection Ht as <-.
  intros p Hp. rewrite at_map_keys by done.
  assert (HN : 1 <= Qnat (length c)).
  { pose proof (length_pos_of_valid _ Hv). unfold Qnat.
    change 1 with (inject_Z 1). rewrite <-Zle_Qle. lia. }
  assert (HS : 1 <= Qnat (size links)).
  { unfold Qnat. change 1 with (inject_Z 1). rewrite <-Zle_Qle.
    destruct (decide (size links = 0%nat)) as [H0%size_zero_empty|]; [done|lia]. }
  assert (Hunit : ∀ x, 1 <= x → 0 <= 1 / x <= 1).
  { intros x Hx. split.
    - apply Qle_shift_div_l; lra.
    - apply Qle_shift_div_r; lra. }
  destruct (Hunit _ HN) as [HN0 HN1]. destruct (Hunit _ HS) as [HS0 HS1].
  assert (0 <= d * (1 / Qnat (size links)) <= d) as [? ?] by (split; nra).
  assert (0 <= (1 - d) * (1 / Qnat (length c)) <= 1 - d) as [? ?] by (split; nra).
  destruct (decide (p ∈ links)); split; lra.
Qed.

Lemma transition_model_distribution_witness :
  valid_corpus corpus_abc
  ∧ Dict.get corpus_abc "A" = Some {["B"%string; "C"%string]}
  ∧ ({["B"%string; "C"%string]} : gset string) ≠ ∅
  ∧ 0 <= 85 # 100 <= 1
  ∧ ∃ t, transition_model corpus_abc "A" (85 # 100) = Returns t
         ∧ (∀ p, p ∈ Dict.keys corpus_abc → 0 <= at_ t p <= 1)
         ∧ Qsum (Dict.values t) == 1.
Proof.
  assert (Hv : valid_corpus corpus_abc)
    by (apply (bool_decide_unpack _); vm_compute; exact I).
  assert (Hl : ({["B"%string; "C"%string]} : gset string) ≠ ∅)
    by (apply (bool_decide_unpack _); vm_compute; exact I).
  assert (Hd : 0 <= 85 # 100 <= 1) by (split; discriminate).
  split; [exact Hv|]. split; [reflexivity|]. split; [exact Hl|]. split; [exact Hd|].
  exact (transition_model_distribution corpus_abc "A" _ (85 # 100) Hv eq_refl Hl Hd).
Defined.

(** X8: the outcome for a page depends on the graph only through its
    list of pages and the links of that page: two graphs with the same
    pages in the same order that agree on the links of [page] give the
    same outcome, whatever the other pages link to. *)
Theorem transition_model_reads_one_page (c1 c2 : corpus) (page : page) (d : Q) :
  Dict.keys c1 = Dict.keys c2 → Dict.get c1 page = Dict.get c2 page →
  transition_model c1 page d = transition_model c2 page d.
Proof.
  intros Hkeys Hget.
  assert (Hlen : length c1 = length c2).
  { by rewrite <-(length_map fst c1), <-(length_map fst c2);
      change (map fst ?x) with (Dict.keys x); rewrite Hkeys. }
  unfold transition_model, damping_rows, non_damping_rows, Dict.subscript.
  by rewrite Hkeys, Hget, Hlen.
Qed.

Lemma transition_model_reads_one_page_witness :
  Dict.keys corpus_ab = Dict.keys corpus_a_b
  ∧ Dict.get corpus_ab "A" = Dict.get corpus_a_b "A"
  ∧ transition_model corpus_ab "A" (85 # 100)
    = transition_model corpus_a_b "A" (85 # 100).
Proof.
  split; [reflexivity|]. split; [reflexivity|].
  exact (transition_model_reads_one_page corpus_ab corpus_a_b "A" (85 # 100)
           eq_refl eq_refl).
Defined.

(** ** sample_pagerank, beyond the claims *)

(** X9: for a valid graph, damping in [0,1) and n >= 1,
    [sample_pagerank] returns a vector whatever the random draws are:
    one entry per page, each the number of visits of the page in a walk
    of [n] pages of the graph divided by [n], the entries adding up
    to 1. *)
Theorem sample_pagerank_frequencies (g : rng) (c : corpus) (d : Q) (n : Z) :
  valid_corpus c → 0 <= d < 1 → (1 ≤ n)%Z →
  ∃ v walk,
    sample_pagerank g c d n = Returns v
    ∧ sample_pagerank_walk g c d n = Returns walk
    ∧ Z.of_nat (length walk) = n
    ∧ walk ⊆ Dict.keys c
    ∧ Dict.keys v = Dict.keys c
    ∧ (∀ p, p ∈ Dict.keys c → at_ v p = inject_Z (visits walk p) / inject_Z n)
    ∧ Qsum (Dict.values v) == 1.
Proof.
  intros Hv [_ Hd1] Hn. pose proof Hv as (Hne & Hnd & _).
  destruct (sample_pagerank_total g c d n Hv (or_introl Hd1) Hn) as [v Hrun].
  destruct (sample_pagerank_counts g c d n v Hne Hnd Hn Hrun)
    as (walk & Hwalk & Hlen & Hin & Hkeys & Hat & Hsum & _).
  by exists v, walk.
Qed.

Lemma sample_pagerank_frequencies_witness :
  valid_corpus corpus_abc ∧ 0 <= 85 # 100 < 1 ∧ (1 ≤ 10000)%Z
  ∧ ∃ v walk,
      sample_pagerank rng0 corpus_abc (85 # 100) 10000 = Returns v
      ∧ sample_pagerank_walk rng0 corpus_abc (85 # 100) 10000 = Returns walk
      ∧ Z.of_nat (length walk) = 10000%Z
      ∧ walk ⊆ Dict.keys corpus_abc
      ∧ Dict.keys v = Dict.keys corpus_abc
      ∧ (∀ p, p ∈ Dict.keys corpus_abc →
           at_ v p = inject_Z (visits walk p) / inject_Z 10000)
      ∧ Qsum (Dict.values v) == 1.
Proof.
  assert (Hv : valid_corpus corpus_abc)
    by (apply (bool_decide_unpack _); vm_compute; exact I).
  assert (Hd : 0 <= 85 # 100 < 1) by (split; [discriminate|reflexivity]).
  assert (Hn : (1 ≤ 10000)%Z) by lia.
  split; [exact Hv|]. split; [exact Hd|]. split; [exact Hn|].
  exact (sample_pagerank_frequencies rng0 corpus_abc (85 # 100) 10000 Hv Hd Hn).
Defined.

Lemma visits_bounds (walk : list page) (p : page) :
  (0 ≤ visits walk p ≤ Z.of_nat (length walk))%Z.
Proof.
  unfold visits. pose proof (length_filter (fun q => q = p) walk). lia.
Qed.

(** X10: every rank [sample_pagerank] returns (n >= 1) lies between 0
    and 1, as its docstring says. *)
Theorem sample_pagerank_unit_interval (g : rng) (c : corpus) (d : Q) (n : Z)
    (v : dict Q) :
  c ≠ [] → NoDup (Dict.keys c) → (1 ≤ n)%Z →
  sample_pagerank g c d n = Returns v →
  ∀ p, p ∈ Dict.keys c → 0 <= at_ v p <= 1.
Proof.
  intros Hne Hnd Hn Hrun p Hp.
  destruct (sample_pagerank_counts g c d n v Hne Hnd Hn Hrun)
    as (walk & _ & Hlen & _ & _ & Hat & _).
  rewrite (Hat p Hp). pose proof (visits_bounds walk p) as [Hlo Hhi].
  rewrite Hlen in Hhi.
  assert (HnQ : 0 < inject_Z n).
  { change 0 with (inject_Z 0). rewrite <-Zlt_Qlt. lia. }
  split.
  - apply Qle_shift_div_l; [done|]. rewrite Qmult_0_l.
    change 0 with (inject_Z 0). by rewrite <-Zle_Qle.
  - apply Qle_shift_div_r; [done|]. rewrite Qmult_1_l. by rewrite <-Zle_Qle.
Qed.

Lemma sample_pagerank_unit_interval_witness :
  corpus_abc ≠ [] ∧ NoDup (Dict.keys corpus_abc) ∧ (1 ≤ 2)%Z
  ∧ ∃ v, sample_pagerank rng0 corpus_abc (85 # 100) 2 = Returns v
         ∧ ∀ p, p ∈ Dict.keys corpus_abc → 0 <= at_ v p <= 1.
Proof.
  assert (Hne : corpus_abc ≠ []) by discriminate.
  assert (Hnd : NoDup (Dict.keys corpus_abc))
    by (apply (bool_decide_unpack _); vm_compute; exact I).
  assert (Hn : (1 ≤ 2)%Z) by lia.
  split; [exact Hne|]. split; [exact Hnd|]. split; [exact Hn|].
  eexists. split; [vm_compute; reflexivity|].
  apply (sample_pagerank_unit_interval rng0 corpus_abc (85 # 100) 2 _ Hne Hnd Hn).
  vm_compute. reflexivity.
Defined.

(** ** iterate_pagerank, beyond the claims *)

Lemma inflow_nonneg c N pr p :
  0 < N → (∀ q, 0 <= at_ pr q) → 0 <= inflow c N pr p.
Proof.
  intros HN Hpr. rewrite inflow_sum. apply Qsum_nonneg. intros e _.
  rewrite inflow_term_weight. apply Qmult_le_0_compat; [by apply weight_nonneg|done].
Qed.

Lemma update_page_nonneg c N d pr p :
  0 < N → 0 <= d <= 1 → (∀ q, 0 <= at_ pr q) →
  ∀ q, 0 <= at_ (update_page c N d pr p) q.
Proof.
  intros HN [Hd0 Hd1] Hpr q. unfold update_page.
  destruct (decide (p = q)) as [->|Hne].
  - rewrite at_set_eq. pose proof (inflow_nonneg c N pr q HN Hpr).
    assert (0 <= d * inflow c N pr q) by (by apply Qmult_le_0_compat). lra.
  - by rewrite at_set_ne.
Qed.

Lemma fold_update_nonneg c N d ps pr :
  0 < N → 0 <= d <= 1 → (∀ q, 0 <= at_ pr q) →
  ∀ q, 0 <= at_ (fold_left (update_page c N d) ps pr) q.
Proof.
  intros HN Hd. revert pr. induction ps as [|p ps IH]; intros pr Hpr; [done|].
  simpl. apply IH. by apply update_page_nonneg.
Qed.

(** After a sweep over non-negative values every page holds at least
    1 - damping. *)
Lemma sweep_floor c N d pr p :
  NoDup (Dict.keys c) → 0 < N → 0 <= d <= 1 → (∀ q, 0 <= at_ pr q) →
  p ∈ Dict.keys c → 1 - d <= at_ (sweep c N d pr) p.
Proof.
  intros Hnd HN Hd Hpr Hp.
  apply list_elem_of_split in Hp as (before & after & Hsplit).
  rewrite (sweep_reads_updated c N d pr before p after Hnd Hsplit).
  pose proof (inflow_nonneg c N (fold_left (update_page c N d) before pr) p HN
                (fold_update_nonneg c N d before pr HN Hd Hpr)) as Hin.
  destruct Hd as [Hd0 Hd1].
  assert (0 <= d * inflow c N (fold_left (update_page c N d) before pr) p)
    by (by apply Qmult_le_0_compat).
  lra.
Qed.

Lemma initial_ranks_nonneg c q : 0 <= at_ (initial_ranks c) q.
Proof.
  unfold at_, initial_ranks.
  destruct (decide (q ∈ Dict.keys c)) as [Hq|Hq].
  - rewrite (get_map_keys (fun _ => 1 / Qnat (length c))) by done. simpl.
    apply inv_Qnat_nonneg.
  - assert (Hnone : Dict.get (map (fun item => (item, 1 / Qnat (length c)))
                                (Dict.keys c)) q = None).
    { apply get_None. by rewrite keys_map_keys. }
    rewrite Hnone. simpl. lra.
Qed.

Lemma round_vector_nonneg c d k q :
  valid_corpus c → 0 <= d <= 1 →
  0 <= at_ (round_vector c (Qnat (length c)) d (initial_ranks c) k) q.
Proof.
  intros Hv Hd. pose proof (Qnat_pos _ (length_pos_of_valid _ Hv)) as HN.
  revert q. induction k as [|k IH]; intros q.
  - apply initial_ranks_nonneg.
  - unfold round_vector. simpl. by apply fold_update_nonneg.
Qed.

(** X11: for a valid graph and damping in [0,1], a vector returned by
    [iterate_pagerank] has one entry per page, in the order of the
    graph, and every entry is at least (1 - damping)/N. *)
Theorem iterate_pagerank_floor (fuel : nat) (c : corpus) (d : Q) (v : dict Q) :
  valid_corpus c → 0 <= d <= 1 →
  iterate_pagerank fuel c d = Some (Returns v) →
  Dict.keys v = Dict.keys c
  ∧ ∀ p, p ∈ Dict.keys c → (1 - d) / Qnat (length c) <= at_ v p.
Proof.
  intros Hv Hd Hrun. pose proof Hv as (_ & Hnd & _).
  pose proof (Qnat_pos _ (length_pos_of_valid _ Hv)) as HN.
  apply (iterate_pagerank_rounds _ _ _ _ Hv) in Hrun as (k & [Hk1 _] & -> & _).
  destruct k as [|k]; [lia|].
  pose proof (keys_round_vector c (Qnat (length c)) d (S k)) as Hkeys.
  destruct (divide_all_eq (Qnat (length c))
              (round_vector c (Qnat (length c)) d (initial_ranks c) (S k)))
    as [Hkv Hat]; [by rewrite Hkeys|].
  split; [by rewrite Hkv|].
  intros p Hp. rewrite Hat by (by rewrite Hkeys).
  assert (Hfloor : 1 - d
                   <= at_ (round_vector c (Qnat (length c)) d (initial_ranks c) (S k)) p).
  { unfold round_vector. simpl. apply sweep_floor; try done.
    intros q. by apply round_vector_nonneg. }
  unfold Qdiv. apply Qmult_le_compat_r; [done|].
  apply Qinv_le_0_compat. lra.
Qed.

Lemma iterate_pagerank_floor_witness :
  valid_corpus corpus_a ∧ 0 <= 85 # 100 <= 1
  ∧ ∃ v, iterate_pagerank 2 corpus_a (85 # 100) = Some (Returns v)
         ∧ Dict.keys v = Dict.keys corpus_a
         ∧ ∀ p, p ∈ Dict.keys corpus_a →
             (1 - (85 # 100)) / Qnat (length corpus_a) <= at_ v p.
Proof.
  assert (Hv : valid_corpus corpus_a)
    by (apply (bool_decide_unpack _); vm_compute; exact I).
  assert (Hd : 0 <= 85 # 100 <= 1) by (split; discriminate).
  split; [exact Hv|]. split; [exact Hd|].
  eexists. split; [vm_compute; reflexivity|].
  apply (iterate_pagerank_floor 2 corpus_a (85 # 100) _ Hv Hd).
  vm_compute. reflexivity.
Defined.

Lemma sweep_damping_zero c N pr p :
  NoDup (Dict.keys c) → p ∈ Dict.keys c → at_ (sweep c N 0 pr) p == 1.
Proof.
  intros Hnd Hp. apply list_elem_of_split in Hp as (before & after & Hsplit).
  rewrite (sweep_reads_updated c N 0 pr before p after Hnd Hsplit). ring.
Qed.

(** X12: with damping 0 the loop stops after its second round and
    [iterate_pagerank] returns the uniform vector: 1/N for every page of
    a valid graph, whatever the links are. *)
Theorem iterate_pagerank_damping_zero (c : corpus) :
  valid_corpus c →
  ∃ v, iterate_pagerank 2 c 0 = Some (Returns v)
       ∧ Dict.keys v = Dict.keys c
       ∧ ∀ p, p ∈ Dict.keys c → at_ v p == 1 / Qnat (length c).
Proof.
  intros Hv. pose proof Hv as (Hne & Hnd & _).
  set (N := Qnat (length c)).
  set (x := round_vector c N 0 (initial_ranks c)).
  assert (Hkeys : ∀ k, Dict.keys (x k) = Dict.keys c)
    by (intros k; apply keys_round_vector).
  assert (Hone : ∀ k p, p ∈ Dict.keys c → at_ (x (S k)) p == 1).
  { intros k p Hp. unfold x, round_vector. simpl. by apply sweep_damping_zero. }
  assert (Hxne : ∀ k, x k ≠ []).
  { intros k Hx. specialize (Hkeys k). rewrite Hx in Hkeys. by destruct c. }
  exists (divide_all N (x 2%nat)). split; [|split].
  - apply (iterate_pagerank_rounds 2 c 0 _ Hv). exists 2%nat.
    split; [lia|]. split; [done|]. split.
    + unfold stops_in_round. cbn [round_prev]. fold N. fold (x 1%nat) (x 2%nat).
      apply stops_iff_small_gaps; [by rewrite Hkeys|done|].
      intros q Hq. rewrite Hkeys in Hq. unfold gap.
      rewrite (Hone 0%nat q Hq), (Hone 1%nat q Hq). reflexivity.
    + intros j Hj. assert (j = 1%nat) as -> by lia.
      unfold stops_in_round. cbn [round_prev]. fold N. fold (x 1%nat).
      rewrite stops_iff_small_gaps by (by rewrite ?Hkeys).
      intros Hsmall. destruct c as [|[q links] c']; [done|].
      assert (Hq : q ∈ Dict.keys ((q, links) :: c')) by left.
      specialize (Hsmall q). rewrite Hkeys in Hsmall. specialize (Hsmall Hq).
      unfold gap in Hsmall. rewrite (Hone 0%nat q Hq) in Hsmall.
      unfold at_ in Hsmall. rewrite get_const in Hsmall by done.
      by vm_compute in Hsmall.
  - destruct (divide_all_eq N (x 2%nat)) as [Hkv _]; [by rewrite Hkeys|].
    by rewrite Hkv.
  - intros p Hp.
    destruct (divide_all_eq N (x 2%nat)) as [_ Hat]; [by rewrite Hkeys|].
    rewrite Hat by (by rewrite Hkeys). by rewrite (Hone 1%nat p Hp).
Qed.

Lemma iterate_pagerank_damping_zero_witness :
  valid_corpus corpus_abc
  ∧ ∃ v, iterate_pagerank 2 corpus_abc 0 = Some (Returns v)
         ∧ Dict.keys v = Dict.keys corpus_abc
         ∧ ∀ p, p ∈ Dict.keys corpus_abc → at_ v p == 1 / Qnat (length corpus_abc).
Proof.
  assert (Hv : valid_corpus corpus_abc)
    by (apply (bool_decide_unpack _); vm_compute; exact I).
  split; [exact Hv|]. exact (iterate_pagerank_damping_zero corpus_abc Hv).
Defined.

Lemma inflow_ext c N pr pr' p :
  (∀ q, q ∈ Dict.keys c → at_ pr q == at_ pr' q) →
  inflow c N pr p == inflow c N pr' p.
Proof.
  intros Heq. rewrite !inflow_sum. apply Qsum_ext. intros e He.
  rewrite !inflow_term_weight. rewrite (Heq e.1); [reflexivity|].
  apply list_elem_of_fmap. by exists e.
Qed.

(** X13: a vector that a sweep leaves unchanged is, once divided by N, a
    fixed point of the PageRank recurrence
    rank(p) = (1 - damping)/N + damping * (sum over the pages q linking
    to p of rank(q)/outdegree(q) + sum over the dangling pages q of
    rank(q)/N). *)
Theorem sweep_fixed_point (c : corpus) (d : Q) (pr : dict Q) :
  valid_corpus c →
  (∀ q, q ∈ Dict.keys c → at_ (sweep c (Qnat (length c)) d pr) q == at_ pr q) →
  ∀ p, p ∈ Dict.keys c →
    at_ pr p / Qnat (length c)
    == spec_recurrence c d (fun q => at_ pr q / Qnat (length c)) p.
Proof.
  intros (Hne & Hnd & _) Hfix p Hp. set (N := Qnat (length c)) in *.
  pose proof Hp as (before & after & Hsplit)%list_elem_of_split.
  assert (Hsame : ∀ q, q ∈ Dict.keys c →
            at_ (fold_left (update_page c N d) before pr) q == at_ pr q).
  { intros q Hq. destruct (decide (q ∈ before)) as [Hin|Hnin].
    - rewrite <-(Hfix q Hq). unfold sweep. rewrite Hsplit, fold_left_app.
      rewrite (at_fold_update_other c N d (p :: after)); [reflexivity|].
      rewrite Hsplit in Hnd. apply NoDup_app in Hnd as (_ & Hdisj & _).
      by apply Hdisj.
    - by rewrite at_fold_update_other. }
  pose proof (update_is_recurrence c d pr p Hne) as Hrec. fold N in Hrec.
  rewrite <-Hrec.
  assert (Hval : at_ pr p == 1 - d + d * inflow c N pr p).
  { rewrite <-(Hfix p Hp).
    rewrite (sweep_reads_updated c N d pr before p after Hnd Hsplit).
    by rewrite (inflow_ext c N _ pr p Hsame). }
  by rewrite <-Hval.
Qed.

Lemma sweep_fixed_point_witness :
  valid_corpus corpus_a
  ∧ (∀ q, q ∈ Dict.keys corpus_a →
       at_ (sweep corpus_a (Qnat (length corpus_a)) (85 # 100) [("A"%string, 1)]) q
       == at_ [("A"%string, 1)] q)
  ∧ ∀ p, p ∈ Dict.keys corpus_a →
      at_ [("A"%string, 1)] p / Qnat (length corpus_a)
      == spec_recurrence corpus_a (85 # 100)
           (fun q => at_ [("A"%string, 1)] q / Qnat (length corpus_a)) p.
Proof.
  assert (Hv : valid_corpus corpus_a)
    by (apply (bool_decide_unpack _); vm_compute; exact I).
  assert (Hfix : ∀ q, q ∈ Dict.keys corpus_a →
            at_ (sweep corpus_a (Qnat (length corpus_a)) (85 # 100)
                   [("A"%string, 1)]) q
            == at_ [("A"%string, 1)] q).
  { intros q Hq. simpl in Hq. apply elem_of_cons in Hq as [->|Hq].
    - vm_compute. reflexivity.
    - by apply elem_of_nil in Hq. }
  split; [exact Hv|]. split; [exact Hfix|].
  exact (sweep_fixed_point corpus_a (85 # 100) [("A"%string, 1)] Hv Hfix).
Defined.

(** ** main *)

Lemma insert_sorted_perm x l : insert_sorted x l ≡ₚ x :: l.
Proof.
  induction l as [|y l IH]; simpl; [done|].
  destruct (String.leb x y); [done|]. rewrite IH. apply Permutation_swap.
Qed.

Lemma py_sorted_perm l : py_sorted l ≡ₚ l.
Proof.
  induction l as [|x l IH]; simpl; [done|].
  rewrite insert_sorted_perm. by rewrite IH.
Qed.

Lemma insert_sorted_HdRel x y l :
  String.leb y x = true →
  HdRel (fun a b => String.leb a b = true) y l →
  HdRel (fun a b => String.leb a b = true) y (insert_sorted x l).
Proof.
  intros Hyx Hhd. destruct l as [|z l]; simpl; [by constructor|].
  destruct (String.leb x z); constructor; [done|]. by inversion Hhd.
Qed.

Lemma insert_sorted_Sorted x l :
  Sorted (fun a b => String.leb a b = true) l →
  Sorted (fun a b => String.leb a b = true) (insert_sorted x l).
Proof.
  induction 1 as [|y l Hsorted IH Hhd]; simpl.
  - repeat constructor.
  - destruct (String.leb x y) eqn:Hxy.
    + constructor; [by constructor|]. by constructor.
    + constructor; [done|]. apply insert_sorted_HdRel; [|done].
      destruct (String.leb_total x y) as [H|H]; [congruence|done].
Qed.

(** [sorted] returns its argument rearranged in increasing order. *)
Lemma py_sorted_Sorted l : Sorted (fun a b => String.leb a b = true) (py_sorted l).
Proof.
  induction l as [|x l IH]; simpl; [constructor|]. by apply insert_sorted_Sorted.
Qed.

(** For damping below 1 the loop of [iterate_pagerank] stops, and the
    vector returned has the pages of the graph as its keys. *)
Lemma iterate_pagerank_returns (c : corpus) (d : Q) :
  valid_corpus c → 0 <= d < 1 →
  ∃ fuel v, iterate_pagerank fuel c d = Some (Returns v)
            ∧ Dict.keys v = Dict.keys c.
Proof.
  intros Hv [Hd0 Hd1]. pose proof Hv as (Hne & Hnd & _).
  assert (Hd : 0 <= d <= 1) by (split; lra).
  set (N := Qnat (length c)).
  set (x := round_vector c N d (initial_ranks c)).
  set (W := fun k => weighted_gap c N d (x k) (x (S k))).
  assert (Hstep : ∀ k, W (S k) <= d * W k)
    by (intros k; apply (sweep_contracts c d Hv Hd (x k) (x (S k)))).
  assert (Hpos : ∀ k, 0 <= W k)
    by (intros k; apply weighted_gap_nonneg; done).
  destruct (geometric_small W d ((1 - d) * threshold)) as [k Hk]; [done| |done..|].
  { apply Qmult_lt_0_compat; [lra|done]. }
  assert (HW : W (S k) < (1 - d) * threshold).
  { specialize (Hstep k). specialize (Hpos k).
    assert (0 <= (1 - d) * W k) by (apply Qmult_le_0_compat; lra). lra. }
  assert (Hkeys : ∀ j, Dict.keys (x j) = Dict.keys c)
    by (intros j; apply keys_round_vector).
  assert (Hstop : stops_in_round c N d (initial_ranks c)
                    (Dict.const (Dict.keys c) 0) (S (S k))).
  { unfold stops_in_round. cbn [round_prev]. fold (x (S k)) (x (S (S k))).
    apply stops_iff_small_gaps.
    - by rewrite Hkeys.
    - intros Hx. specialize (Hkeys (S (S k))). rewrite Hx in Hkeys. by destruct c.
    - intros q Hq. rewrite Hkeys in Hq.
      pose proof (gap_le_weighted c d Hv Hd (x (S k)) (x (S (S k))) q Hq) as Hgap.
      fold N in Hgap. change (weighted_gap c N d _ _) with (W (S k)) in Hgap.
      assert (Hlt : (1 - d) * gap (x (S k)) (x (S (S k))) q < (1 - d) * threshold)
        by lra.
      apply Qmult_lt_l in Hlt; [done|lra]. }
  destruct (iterate_loop_stops (S (S k)) (S (S k)) c N d (initial_ranks c)
              (Dict.const (Dict.keys c) 0)) as [v Hrun];
    [by apply initial_ranks_nonempty|lia|done|].
  exists (S (S k)), (divide_all N v). split.
  - rewrite (iterate_pagerank_unfold _ _ _ Hnd). fold N. by rewrite Hrun.
  - apply iterate_loop_rounds in Hrun as (j & _ & -> & _);
      [|by apply initial_ranks_nonempty].
    destruct (divide_all_eq N (round_vector c N d (initial_ranks c) j)) as [Hkv _].
    + fold (x j). by rewrite Hkeys.
    + rewrite Hkv. apply Hkeys.
Qed.

Lemma damping_in_range : 0 <= DAMPING < 1.
Proof. split; [discriminate|reflexivity]. Qed.

(** X14: run on a directory in which no entry has a name ending with
    [.html], the program prints nothing and ends with the [IndexError]
    that [random.choice] raises on the empty graph. *)
Theorem main_without_pages (findall : string → list string)
    (listdir : string → list (string * string)) (format_4f : Q → string)
    (fuel : nat) (g : rng) (argv : list string) :
  length argv = 2%nat →
  (∀ entry, entry ∈ listdir (nth 1 argv ""%string) →
     endswith entry.1 ".html" = false) →
  main findall listdir format_4f fuel g argv = Some (Crashes [] IndexError).
Proof.
  intros Hargv Hnone. unfold main. rewrite decide_False by lia.
  by rewrite (crawl_nil findall _ Hnone).
Qed.

Lemma main_without_pages_witness :
  length ["pagerank.py"; "notes"]%string = 2%nat
  ∧ (∀ entry, entry ∈ listdir_example (nth 1 ["pagerank.py"; "notes"]%string ""%string) →
       endswith entry.1 ".html" = false)
  ∧ main findall_whole listdir_example format_plain 0 rng0
      ["pagerank.py"; "notes"]%string
    = Some (Crashes [] IndexError).
Proof.
  assert (Hnone : ∀ entry,
            entry ∈ listdir_example (nth 1 ["pagerank.py"; "notes"]%string ""%string) →
            endswith entry.1 ".html" = false).
  { intros entry Hin. simpl in Hin. apply elem_of_cons in Hin as [->|Hin].
    - reflexivity.
    - by apply elem_of_nil in Hin. }
  split; [reflexivity|]. split; [exact Hnone|].
  exact (main_without_pages findall_whole listdir_example format_plain 0 rng0
           ["pagerank.py"; "notes"]%string eq_refl Hnone).
Defined.

(** X15: run on a directory with at least one entry whose name ends
    with [.html], the program ends normally, whatever the random draws
    are: it prints the sampling heading, one line per page with the
    sampled rank, the iteration heading and one line per page with the
    iterated rank, the pages of both reports in increasing order of
    their names. *)
Theorem main_prints_both_reports (findall : string → list string)
    (listdir : string → list (string * string)) (format_4f : Q → string)
    (g : rng) (argv : list string) :
  length argv = 2%nat →
  (∃ entry, entry ∈ listdir (nth 1 argv ""%string)
            ∧ endswith entry.1 ".html" = true) →
  let corpus := crawl findall (listdir (nth 1 argv ""%string)) in
  ∃ fuel sampled iterated order,
    main findall listdir format_4f fuel g argv
    = Some (Prints
              ("PageRank Results from Sampling (n = 10000)"%string
                 :: map (report_line format_4f sampled) order
               ++ "PageRank Results from Iteration"%string
                  :: map (report_line format_4f iterated) order))
    ∧ sample_pagerank g corpus DAMPING SAMPLES = Returns sampled
    ∧ iterate_pagerank fuel corpus DAMPING = Some (Returns iterated)
    ∧ order ≡ₚ Dict.keys corpus
    ∧ Sorted (fun a b => String.leb a b = true) order.
Proof.
  intros Hargv Hhtml corpus.
  assert (Hv : valid_corpus corpus).
  { split; [by apply crawl_nonempty|].
    split; [apply crawl_NoDup|apply crawl_links_inside]. }
  pose proof Hv as (Hne & Hnd & _).
  pose proof damping_in_range as Hd.
  assert (Hn : (1 ≤ SAMPLES)%Z) by (unfold SAMPLES; lia).
  destruct (sample_pagerank_total g corpus DAMPING SAMPLES Hv
              (or_introl (proj2 Hd)) Hn) as [sampled Hs].
  destruct (sample_pagerank_counts g corpus DAMPING SAMPLES sampled Hne Hnd Hn Hs)
    as (_ & _ & _ & _ & Hks & _).
  destruct (iterate_pagerank_returns corpus DAMPING Hv Hd)
    as (fuel & iterated & Hi & Hki).
  exists fuel, sampled, iterated, (py_sorted (Dict.keys corpus)).
  split; [|split; [done|split; [done|split]]].
  - unfold main. rewrite decide_False by lia. fold corpus.
    rewrite Hs, Hi. unfold report. by rewrite Hks, Hki.
  - apply py_sorted_perm.
  - apply py_sorted_Sorted.
Qed.

Lemma main_prints_both_reports_witness :
  length ["pagerank.py"; "corpus"]%string = 2%nat
  ∧ (∃ entry, entry ∈ listdir_example (nth 1 ["pagerank.py"; "corpus"]%string ""%string)
              ∧ endswith entry.1 ".html" = true)
  ∧ ∃ fuel sampled iterated order,
      main findall_whole listdir_example format_plain fuel rng0
        ["pagerank.py"; "corpus"]%string
      = Some (Prints
                ("PageRank Results from Sampling (n = 10000)"%string
                   :: map (report_line format_plain sampled) order
                 ++ "PageRank Results from Iteration"%string
                    :: map (report_line format_plain iterated) order))
      ∧ sample_pagerank rng0
          (crawl findall_whole
             (listdir_example (nth 1 ["pagerank.py"; "corpus"]%string ""%string)))
          DAMPING SAMPLES = Returns sampled
      ∧ iterate_pagerank fuel
          (crawl findall_whole
             (listdir_example (nth 1 ["pagerank.py"; "corpus"]%string ""%string)))
          DAMPING = Some (Returns iterated)
      ∧ order ≡ₚ Dict.keys
          (crawl findall_whole
             (listdir_example (nth 1 ["pagerank.py"; "corpus"]%string ""%string)))
      ∧ Sorted (fun a b => String.leb a b = true) order.
Proof.
  assert (Hhtml : ∃ entry,
            entry ∈ listdir_example (nth 1 ["pagerank.py"; "corpus"]%string ""%string)
            ∧ endswith entry.1 ".html" = true).
  { exists ("a.html", "b.html")%string. split; [left|reflexivity]. }
  split; [reflexivity|]. split; [exact Hhtml|].
  exact (main_prints_both_reports findall_whole listdir_example format_plain rng0
           ["pagerank.py"; "corpus"]%string eq_refl Hhtml).
Defined.

(** ** Two more facts about the estimators *)

(** X16: with a single sample (n = 1, valid graph, damping in [0,1))
    [sample_pagerank] returns rank 1 for exactly one page, the page
    drawn, and rank 0 for every other page. *)
Theorem sample_pagerank_single_sample (g : rng) (c : corpus) (d : Q) :
  valid_corpus c → 0 <= d < 1 →
  ∃ v p, sample_pagerank g c d 1 = Returns v
         ∧ sample_pagerank_walk g c d 1 = Returns [p]
         ∧ p ∈ Dict.keys c
         ∧ at_ v p == 1
         ∧ ∀ q, q ∈ Dict.keys c → q ≠ p → at_ v q == 0.
Proof.
  intros Hv [_ Hd1]. pose proof Hv as (Hne & Hnd & _).
  assert (Hn : (1 ≤ 1)%Z) by lia.
  destruct (sample_pagerank_total g c d 1 Hv (or_introl Hd1) Hn) as [v Hrun].
  destruct (sample_pagerank_counts g c d 1 v Hne Hnd Hn Hrun)
    as (walk & Hwalk & Hlen & Hin & _ & Hat & _ & _).
  destruct walk as [|p [|? ?]]; simpl in Hlen; try lia.
  exists v, p. split; [done|]. split; [done|].
  assert (Hp : p ∈ Dict.keys c) by (apply Hin; left).
  split; [done|]. split.
  - rewrite (Hat p Hp), visits_cons, decide_True by done. by vm_compute.
  - intros q Hq Hne'. rewrite (Hat q Hq), visits_cons, decide_False by done.
    by vm_compute.
Qed.

Lemma sample_pagerank_single_sample_witness :
  valid_corpus corpus_abc ∧ 0 <= 85 # 100 < 1
  ∧ ∃ v p, sample_pagerank rng0 corpus_abc (85 # 100) 1 = Returns v
           ∧ sample_pagerank_walk rng0 corpus_abc (85 # 100) 1 = Returns [p]
           ∧ p ∈ Dict.keys corpus_abc
           ∧ at_ v p == 1
           ∧ ∀ q, q ∈ Dict.keys corpus_abc → q ≠ p → at_ v q == 0.
Proof.
  assert (Hv : valid_corpus corpus_abc)
    by (apply (bool_decide_unpack _); vm_compute; exact I).
  assert (Hd : 0 <= 85 # 100 < 1) by (split; [discriminate|reflexivity]).
  split; [exact Hv|]. split; [exact Hd|].
  exact (sample_pagerank_single_sample rng0 corpus_abc (85 # 100) Hv Hd).
Defined.

(** X17: [pagerank_prev] starts as all zeros, so for damping up to 0.999
    the test of the first round cannot succeed (every page then holds at
    least 1 - damping >= 0.001): the loop never returns after one round,
    it always sweeps at least twice. *)
Theorem iterate_pagerank_second_round (c : corpus) (d : Q) :
  valid_corpus c → 0 <= d <= 999 # 1000 →
  iterate_pagerank 1 c d = None.
Proof.
  intros Hv [Hd0 Hd1]. pose proof Hv as (Hne & Hnd & _).
  assert (Hd : 0 <= d <= 1) by (split; lra).
  pose proof (Qnat_pos _ (length_pos_of_valid _ Hv)) as HN.
  destruct (iterate_pagerank 1 c d) as [[v|e]|] eqn:Hrun; [| |done].
  - exfalso.
    apply (iterate_pagerank_rounds 1 c d v Hv) in Hrun as (k & Hk & _ & Hstop & _).
    assert (k = 1%nat) as -> by lia.
    unfold stops_in_round in Hstop. cbn [round_prev] in Hstop.
    pose proof (keys_round_vector c (Qnat (length c)) d 1) as Hkeys.
    rewrite stops_iff_small_gaps in Hstop.
    2:{ by rewrite Hkeys. }
    2:{ intros Hx. rewrite Hx in Hkeys. by destruct c. }
    destruct c as [|[q links] c']; [done|].
    assert (Hq : q ∈ Dict.keys ((q, links) :: c')) by left.
    specialize (Hstop q). rewrite Hkeys in Hstop. specialize (Hstop Hq).
    unfold gap in Hstop. unfold at_ at 1 in Hstop.
    rewrite get_const in Hstop by done. simpl default in Hstop.
    assert (Hfloor : 1 - d
              <= at_ (round_vector ((q, links) :: c')
                        (Qnat (length ((q, links) :: c'))) d
                        (initial_ranks ((q, links) :: c')) 1) q).
    { unfold round_vector. simpl Nat.iter. apply sweep_floor; try done.
      apply initial_ranks_nonneg. }
    apply Qabs_Qlt_condition in Hstop as [Hlo _]. unfold threshold in Hlo. lra.
  - exfalso. by apply (iterate_pagerank_no_exception 1 c d e Hne).
Qed.

Lemma iterate_pagerank_second_round_witness :
  valid_corpus corpus_abc ∧ 0 <= 85 # 100 <= 999 # 1000
  ∧ iterate_pagerank 1 corpus_abc (85 # 100) = None.
Proof.
  assert (Hv : valid_corpus corpus_abc)
    by (apply (bool_decide_unpack _); vm_compute; exact I).
  assert (Hd : 0 <= 85 # 100 <= 999 # 1000) by (split; discriminate).
  split; [exact Hv|]. split; [exact Hd|].
  exact (iterate_pagerank_second_round corpus_abc (85 # 100) Hv Hd).
Defined.
